(** * MML player face: a shallow embedding of
      [movement/watch_faces/demo/mml_player_face.c]

    The watch face plays a short score written in a Music Macro Language
    through the buzzer.  The C code is one blocking loop over a
    NUL-terminated string; every iteration scans one token, resolves it to a
    buzzer note and a duration and drives the display and the buzzer.

    The embedding keeps the C names.  Machine integers are [Z] with their
    wrap-around written out, characters are [ascii], a score is a [string]
    read through a cursor, and the calls to the watch library are recorded
    as a trace of events. *)

From Stdlib Require Import ZArith Lia Bool List.
From Stdlib Require Import Ascii String.
Import ListNotations.

Local Open Scope Z_scope.

(* ------------------------------------------------------------------ *)
(** ** Machine integers of the target (32-bit ARM, two's complement)   *)
(* ------------------------------------------------------------------ *)

Module CInt.

Definition INT_MIN : Z := -2147483648.
Definition INT_MAX : Z := 2147483647.

(** Conversion to [int].  Signed overflow is undefined in ISO C; the
    model takes the two's-complement wrap of the target. *)
Definition int_of (z : Z) : Z := (z + 2147483648) mod 4294967296 - 2147483648.

Definition u8_of  (z : Z) : Z := z mod 256.
Definition u16_of (z : Z) : Z := z mod 65536.
Definition u32_of (z : Z) : Z := z mod 4294967296.

End CInt.

(* ------------------------------------------------------------------ *)
(** ** <ctype.h> in the C locale                                       *)
(* ------------------------------------------------------------------ *)

Module CType.

Definition code (c : ascii) : Z := Z.of_N (N_of_ascii c).

Definition of_code (z : Z) : ascii := ascii_of_N (Z.to_N z).

Definition NUL : ascii := zero.

Definition toupper (c : ascii) : ascii :=
  if (97 <=? code c) && (code c <=? 122) then of_code (code c - 32) else c.

Definition tolower (c : ascii) : ascii :=
  if (65 <=? code c) && (code c <=? 90) then of_code (code c + 32) else c.

Definition isdigit (c : ascii) : bool :=
  (48 <=? code c) && (code c <=? 57).

End CType.

(* ------------------------------------------------------------------ *)
(** ** The buzzer note type                                            *)
(* ------------------------------------------------------------------ *)

(** Modelled from the spec: the enum [BuzzerNote] of [watch_buzzer.h],
    which is not among the sources.  A pitch index identifies one entry of
    the note-frequency table; [BUZZER_NOTE_REST] is the distinguished
    sentinel meaning silence. *)
Inductive BuzzerNote : Type :=
| BUZZER_NOTE (idx : Z)
| BUZZER_NOTE_REST.

(* ------------------------------------------------------------------ *)
(** ** Note mapping: [note_from_mml]                                   *)
(* ------------------------------------------------------------------ *)

Module Pitch.
Import CInt.

(** [#define NOTE_INDEX(octave, semitone)
      ((octave) * 12 + (semitone) - (1 * 12 + 9))], in [int]. *)
Definition NOTE_INDEX (octave semitone : Z) : Z :=
  int_of (int_of (int_of (octave * 12) + semitone) - (1 * 12 + 9)).

(** The [switch (letter)]: [None] is the [default:] branch. *)
Definition switch_letter (letter : ascii) : option Z :=
  match letter with
  | "C"%char => Some 0
  | "D"%char => Some 2
  | "E"%char => Some 4
  | "F"%char => Some 5
  | "G"%char => Some 7
  | "A"%char => Some 9
  | "B"%char => Some 11
  | _   => None
  end.

(** [if (semitone < 0) { semitone += 12; if (octave > 1) octave--; }] *)
Definition borrow (so : Z * Z) : Z * Z :=
  let '(semitone, octave) := so in
  if semitone <? 0
  then (int_of (semitone + 12),
        if 1 <? octave then u8_of (octave - 1) else octave)
  else (semitone, octave).

(** [if (semitone >= 12) { semitone -= 12; if (octave < 8) octave++; }] *)
Definition carry (so : Z * Z) : Z * Z :=
  let '(semitone, octave) := so in
  if 12 <=? semitone
  then (int_of (semitone - 12),
        if octave <? 8 then u8_of (octave + 1) else octave)
  else (semitone, octave).

(** The values of [semitone] and [octave] when line 56 is reached. *)
Definition rollover (semitone accidental octave : Z) : Z * Z :=
  carry (borrow (int_of (semitone + accidental), octave)).

(** [if (idx < 0) idx = 0; if (idx > 86) idx = 86;] *)
Definition clamp_idx (idx : Z) : Z :=
  let idx := if idx <? 0 then 0 else idx in
  if 86 <? idx then 86 else idx.

(** [static BuzzerNote note_from_mml(char letter, int accidental,
                                    uint8_t octave)] *)
Definition note_from_mml (letter : ascii) (accidental octave : Z) : BuzzerNote :=
  match switch_letter letter with
  | None => BUZZER_NOTE_REST
  | Some semitone =>
      let '(semitone, octave) := rollover semitone accidental octave in
      let idx := NOTE_INDEX octave semitone in
      BUZZER_NOTE (clamp_idx idx)
  end.

(** *** The resolver as the specification words it *)

(** Base semitone per letter (fixed table). *)
Definition spec_base (letter : ascii) : Z :=
  if Ascii.eqb letter "C"%char then 0
  else if Ascii.eqb letter "D"%char then 2
  else if Ascii.eqb letter "E"%char then 4
  else if Ascii.eqb letter "F"%char then 5
  else if Ascii.eqb letter "G"%char then 7
  else if Ascii.eqb letter "A"%char then 9
  else 11.

(** Semitone and octave after the two rollover steps, over unbounded
    integers. *)
Definition spec_rollover (letter : ascii) (accidental octave : Z) : Z * Z :=
  let s0 := spec_base letter + accidental in
  let s1 := if s0 <? 0 then s0 + 12 else s0 in
  let o1 := if (s0 <? 0) && (octave >? 1) then octave - 1 else octave in
  let s2 := if s1 >=? 12 then s1 - 12 else s1 in
  let o2 := if (s1 >=? 12) && (o1 <? 8) then o1 + 1 else o1 in
  (s2, o2).

Definition spec_resolve (letter : ascii) (accidental octave : Z) : Z :=
  let '(semitone, octave) := spec_rollover letter accidental octave in
  Z.max 0 (Z.min 86 (octave * 12 + semitone - 21)).

Definition note_letters : list ascii := ["A"; "B"; "C"; "D"; "E"; "F"; "G"]%char.

End Pitch.


(* ------------------------------------------------------------------ *)
(** ** The watch library, at the boundary of the face                  *)
(* ------------------------------------------------------------------ *)

Module Watch.

(** The calls the face makes, in the order it makes them.  The blocking
    calls ([watch_buzzer_play_note] and the face's own busy-wait
    [mml_delay_ms], which polls the real-time clock) are recorded with the
    duration they are asked for; how long they really take is not part of
    the model. *)
Inductive hw_event : Type :=
| watch_display_string (s : string) (position : Z)
| watch_clear_display
| watch_set_pixel (com seg : Z)
| watch_clear_pixel (com seg : Z)
| watch_set_buzzer_off
| watch_buzzer_play_note (note : BuzzerNote) (duration_ms : Z)
| mml_delay_ms (ms : Z).

Definition trace : Type := list hw_event.

(** Modelled from the spec: the state of the display and tone hardware
    behind the watch library, which is not among the sources.  The display
    shows a character at each digit position and has indicator pixels that
    are set and cleared one at a time; the tone generator sounds or is
    silent. *)
Record hw_state : Type := mk_hw {
  digit : Z -> ascii;
  pixel : Z -> Z -> bool;
  buzzer_on : bool
}.

Definition char_at (s : string) (i : Z) : option ascii :=
  if i <? 0 then None else String.get (Z.to_nat i) s.

Definition write_string (s : string) (position : Z) (d : Z -> ascii) : Z -> ascii :=
  fun i => match char_at s (i - position) with
           | Some ch => ch
           | None => d i
           end.

Definition write_pixel (com seg : Z) (v : bool) (px : Z -> Z -> bool)
  : Z -> Z -> bool :=
  fun c s => if (c =? com) && (s =? seg) then v else px c s.

(** Modelled from the spec: what each call does to the hardware.  A tone
    command blocks while the tone sounds and leaves the generator
    silenced. *)
Definition apply_event (hw : hw_state) (e : hw_event) : hw_state :=
  match e with
  | watch_display_string s position =>
      mk_hw (write_string s position (digit hw)) (pixel hw) (buzzer_on hw)
  | watch_clear_display =>
      mk_hw (fun _ => " "%char) (fun _ _ => false) (buzzer_on hw)
  | watch_set_pixel com seg =>
      mk_hw (digit hw) (write_pixel com seg true (pixel hw)) (buzzer_on hw)
  | watch_clear_pixel com seg =>
      mk_hw (digit hw) (write_pixel com seg false (pixel hw)) (buzzer_on hw)
  | watch_set_buzzer_off => mk_hw (digit hw) (pixel hw) false
  | watch_buzzer_play_note _ _ => mk_hw (digit hw) (pixel hw) false
  | mml_delay_ms _ => hw
  end.

Definition run (hw : hw_state) (t : trace) : hw_state :=
  fold_left apply_event t hw.

Definition is_tone_command (e : hw_event) : bool :=
  match e with
  | watch_buzzer_play_note _ _ => true
  | _ => false
  end.

Definition tone_commands (t : trace) : trace := filter is_tone_command t.

End Watch.

(* ------------------------------------------------------------------ *)
(** ** MML playback: [mml_play_blocking]                               *)
(* ------------------------------------------------------------------ *)

Module MML.
Import CInt CType Watch Pitch.

(** *** The cursor [const char *p] into the score *)

(** [*p]: the end of the string reads as the terminating NUL. *)
Definition deref (p : string) : ascii :=
  match p with
  | EmptyString => NUL
  | String ch _ => ch
  end.

(** [p++] *)
Definition advance (p : string) : string :=
  match p with
  | EmptyString => EmptyString
  | String _ p' => p'
  end.

Definition is_nul (ch : ascii) : bool := Ascii.eqb ch NUL.

(** [*p == ' ' || *p == '\t' || *p == '|'] *)
Definition is_separator (ch : ascii) : bool :=
  Ascii.eqb ch " "%char || Ascii.eqb ch "009"%char || Ascii.eqb ch "|"%char.

(** [while ( *p == ' ' || *p == '\t' || *p == '|') p++;] *)
Fixpoint skip_separators (p : string) : string :=
  match p with
  | EmptyString => p
  | String ch p' => if is_separator ch then skip_separators p' else p
  end.

(** [if ( *p == '+' || *p == '#') { accidental = +1; p++; }
     else if ( *p == '-')         { accidental = -1; p++; }],
    starting from [accidental = 0]. *)
Definition parse_accidental (p : string) : Z * string :=
  if Ascii.eqb (deref p) "+"%char || Ascii.eqb (deref p) "#"%char
  then (1, advance p)
  else if Ascii.eqb (deref p) "-"%char
  then (-1, advance p)
  else (0, p).

(** [while (isdigit((unsigned char)*p)) len = len * 10 + ( *p++ - '0');] *)
Fixpoint parse_length (len : Z) (p : string) : Z * string :=
  match p with
  | EmptyString => (len, p)
  | String ch p' =>
      if isdigit ch
      then parse_length (int_of (int_of (len * 10) + (code ch - code "0"%char))) p'
      else (len, p)
  end.

(** The locals of one loop iteration once line 92 is passed. *)
Record token : Type := mk_token {
  tok_c : ascii;
  tok_accidental : Z;
  tok_is_rest : bool;
  tok_len : Z
}.

(** The branches of lines 80-87; [None] is the final [continue]. *)
Definition classify (c : ascii) (p : string) : option (bool * Z * string) :=
  if Ascii.eqb c "R"%char || Ascii.eqb c "P"%char then
    Some (true, 0, p)
  else if (code "A"%char <=? code c) && (code c <=? code "G"%char) then
    let '(accidental, p) := parse_accidental p in
    Some (false, accidental, p)
  else
    None.

(** How an iteration leaves the scanning part of the body (lines 73-92). *)
Inductive scanned : Type :=
| Break                          (* line 74: [if (!*p) break;] *)
| Continue (p : string)          (* line 86: [continue;] *)
| Token (t : token) (p : string) (* line 92 is passed *).

Section Playback.

(** The locals [tempo_bpm], [default_len] and [octave] that
    [mml_play_blocking] fixes on entry. *)
Variables (tempo_bpm default_len octave : Z).

Definition scan (p : string) : scanned :=
  let p := skip_separators p in
  if is_nul (deref p) then Break else
  let c := toupper (deref p) in
  let p := advance p in
  match classify c p with
  | None => Continue p
  | Some (is_rest, accidental, p) =>
      let '(len, p) := parse_length 0 p in
      let len := if len <=? 0 then default_len else len in
      Token (mk_token c accidental is_rest len) p
  end.

(** [uint32_t quarter_ms = 60000UL / tempo_bpm;] *)
Definition quarter_ms : Z := u32_of (60000 / tempo_bpm).

(** [uint32_t dur_ms = (4UL * quarter_ms) / len;] with [len] converted to
    [unsigned long]. *)
Definition dur_ms (len : Z) : Z :=
  u32_of (u32_of (4 * quarter_ms) / u32_of len).

(** [static void display_note_char(char ch)] *)
Definition display_note_char (ch : ascii) : trace :=
  [watch_display_string (String (tolower ch) EmptyString) 0].

(** Lines 112-113. *)
Definition show_accidental (accidental : Z) : trace :=
  if 0 <? accidental then [watch_set_pixel 0 12]
  else if accidental <? 0 then [watch_set_pixel 0 15]
  else [].

(** Lines 94-121: what the iteration does with its token. *)
Definition render (t : token) : trace :=
  let dur := dur_ms (tok_len t) in
  [watch_clear_pixel 0 12; watch_clear_pixel 0 15] ++
  if tok_is_rest t then
    display_note_char " "%char ++
    [watch_set_buzzer_off; mml_delay_ms (u16_of dur)]
  else
    display_note_char (tok_c t) ++
    show_accidental (tok_accidental t) ++
    [watch_buzzer_play_note
       (note_from_mml (tok_c t) (tok_accidental t) octave) (u16_of dur);
     watch_clear_pixel 0 12; watch_clear_pixel 0 15].

(** The [while ( *p)] loop.  [fuel] bounds the number of iterations;
    [None] means the bound was reached before the loop was left. *)
Fixpoint mml_loop (fuel : nat) (p : string) : option trace :=
  match fuel with
  | O => None
  | S fuel =>
      if is_nul (deref p) then Some [] else
      match scan p with
      | Break => Some []
      | Continue p => mml_loop fuel p
      | Token t p => option_map (app (render t)) (mml_loop fuel p)
      end
  end.

(** The same loop, collecting the tokens instead of rendering them. *)
Fixpoint mml_tokens (fuel : nat) (p : string) : option (list token) :=
  match fuel with
  | O => None
  | S fuel =>
      if is_nul (deref p) then Some [] else
      match scan p with
      | Break => Some []
      | Continue p => mml_tokens fuel p
      | Token t p => option_map (cons t) (mml_tokens fuel p)
      end
  end.

(** Lines 124-128: cleanup after the tune. *)
Definition cleanup : trace :=
  display_note_char " "%char ++
  [watch_clear_pixel 0 12; watch_clear_pixel 0 15; watch_set_buzzer_off].

(** The body of [mml_play_blocking] with the iteration bound explicit.
    The score pointer is [None] when it is [NULL]. *)
Definition play_fuel (fuel : nat) (mml : option string) : option trace :=
  match mml with
  | None => Some []
  | Some s => option_map (fun t => t ++ cleanup) (mml_loop fuel s)
  end.

(** One iteration for each character and one to leave the loop always
    suffice (see [mml_loop_terminates]). *)
Definition enough_fuel (s : string) : nat := S (String.length s).

Definition play (mml : option string) : trace :=
  match mml with
  | None => []
  | Some s =>
      match mml_loop (enough_fuel s) s with
      | Some t => t ++ cleanup
      | None => []
      end
  end.

Definition tokenize (s : string) : list token :=
  match mml_tokens (enough_fuel s) s with
  | Some ts => ts
  | None => []
  end.

End Playback.

(** [static void mml_play_blocking(const char *mml)], with
    [tempo_bpm = 120], [default_len = 4] and [octave = 4]. *)
Definition mml_play_blocking (mml : option string) : trace :=
  play 120 4 4 mml.

(** *** The tokens as the specification names them *)

Inductive letter_name : Type := LA | LB | LC | LD | LE | LF | LG.

Inductive spec_token : Type :=
| Note (letter : letter_name) (accidental : Z) (length : Z)
| Rest (length : Z).

Definition letter_of (c : ascii) : option letter_name :=
  match c with
  | "A"%char => Some LA
  | "B"%char => Some LB
  | "C"%char => Some LC
  | "D"%char => Some LD
  | "E"%char => Some LE
  | "F"%char => Some LF
  | "G"%char => Some LG
  | _ => None
  end.

Definition spec_token_of (t : token) : option spec_token :=
  if tok_is_rest t then Some (Rest (tok_len t))
  else match letter_of (tok_c t) with
       | Some l => Some (Note l (tok_accidental t) (tok_len t))
       | None => None
       end.

(** *** Vocabulary for statements about scores *)

(** Every character of the score is a space, a tab or a bar. *)
Fixpoint only_separators (s : string) : bool :=
  match s with
  | EmptyString => true
  | String ch s' => is_separator ch && only_separators s'
  end.

(** The letters that start a token, in either case. *)
Definition rest_letters : list ascii := ["R"; "P"; "r"; "p"]%char.

Definition token_letters : list ascii :=
  (note_letters ++ ["a"; "b"; "c"; "d"; "e"; "f"; "g"] ++ rest_letters)%char.

End MML.

(* ------------------------------------------------------------------ *)
(** ** Face glue                                                       *)
(* ------------------------------------------------------------------ *)

Module Face.
Import Watch MML.

(** [typedef struct { bool is_playing; } mml_player_state_t;] *)
Record mml_player_state_t : Type := mk_state { is_playing : bool }.

(** The event types the loop tells apart; [EVENT_OTHER] stands for every
    event type that falls to [default:]. *)
Inductive movement_event_type_t : Type :=
| EVENT_ACTIVATE
| EVENT_LIGHT_BUTTON_UP
| EVENT_MODE_BUTTON_UP
| EVENT_OTHER.

(** What a call of the loop amounts to: it returns after the given calls
    to the watch library, or it hands the event to
    [movement_default_loop_handler] and returns what that returns. *)
Inductive loop_result : Type :=
| Returned (result : bool) (state : mml_player_state_t) (calls : trace)
| Delegated (state : mml_player_state_t).

Definition demo_mml : string :=
  "c8 d-8 d8 e8 e-8 f8 f+8 g8 g+8 a8 b8 c2 r4 f+2 c8 c8 g4 r8".

(** [void mml_player_face_setup(..., void **context_ptr)]: a context that
    is still [NULL] is allocated and zeroed. *)
Definition mml_player_face_setup (context : option mml_player_state_t)
  : option mml_player_state_t :=
  match context with
  | None => Some (mk_state false)
  | Some state => Some state
  end.


(** The loop, for the score that the static [demo_mml] points to.  On a
    press of the light button [is_playing] is set for the time of the
    playback and reset after it; nothing else runs in between. *)
Definition face_loop (score : option string)
    (event_type : movement_event_type_t) (state : mml_player_state_t)
  : loop_result :=
  match event_type with
  | EVENT_ACTIVATE => Returned true state []
  | EVENT_LIGHT_BUTTON_UP =>
      if negb (is_playing state) then
        let playing := mk_state true in
        let calls :=
          [watch_clear_display; watch_display_string "play" 5]
          ++ mml_play_blocking score
          ++ [watch_display_string "done" 5] in
        let idle := mk_state false in
        Returned true idle calls
      else Returned true state []
  | EVENT_MODE_BUTTON_UP => Delegated state
  | EVENT_OTHER => Returned true state []
  end.

(** [bool mml_player_face_loop(movement_event_t event, ..., void *context)] *)
Definition mml_player_face_loop
    (event_type : movement_event_type_t) (state : mml_player_state_t)
  : loop_result :=
  face_loop (Some demo_mml) event_type state.


End Face.

(* ------------------------------------------------------------------ *)
(** ** The busy-wait: [mml_delay_ms]                                   *)
(* ------------------------------------------------------------------ *)

Module Delay.
Import CInt.

(** The real-time clock is read by polling.  [clock] lists the seconds
    field of the readings that successive calls of
    [watch_rtc_get_date_time] return; the result is what is left of the
    readings when the wait is over, and [None] when the readings run out
    while the loop is still waiting. *)

(** [while (elapsed < ms) { now = watch_rtc_get_date_time();
      if (now.unit.second != start.unit.second) {
        start = now; if (ms <= 1000) break; elapsed += 1000; } }],
    with [elapsed] a [uint16_t]. *)
Fixpoint delay_loop (clock : list Z) (ms start elapsed : Z) : option (list Z) :=
  if elapsed <? ms then
    match clock with
    | [] => None
    | now :: clock =>
        if negb (now =? start) then
          if ms <=? 1000 then Some clock
          else delay_loop clock ms now (u16_of (elapsed + 1000))
        else delay_loop clock ms start elapsed
    end
  else Some clock.

(** [static void mml_delay_ms(uint16_t ms)]: the first reading is
    [start], and [elapsed] starts at 0. *)
Definition mml_delay_ms (ms : Z) (clock : list Z) : option (list Z) :=
  match clock with
  | [] => None
  | start :: clock => delay_loop clock ms start 0
  end.

(** *** Vocabulary for statements about the wait *)

(** Let the readings go by until the second has changed [n] times. *)
Fixpoint wait_ticks (clock : list Z) (n : nat) (start : Z) : option (list Z) :=
  match n with
  | O => Some clock
  | S n' =>
      match clock with
      | [] => None
      | now :: clock =>
          if now =? start then wait_ticks clock n start
          else wait_ticks clock n' now
      end
  end.

(** The number of changes of the second that a wait of [ms] lasts: none
    for 0, one up to 1000 ms, and [ms / 1000] rounded up beyond. *)
Definition ticks_needed (ms : Z) : nat :=
  if ms <=? 0 then 0%nat
  else if ms <=? 1000 then 1%nat
  else Z.to_nat ((ms + 999) / 1000).

End Delay.

(* ------------------------------------------------------------------ *)
(** ** Vocabulary for statements about scores and traces               *)
(* ------------------------------------------------------------------ *)

Module Score.
Import CInt CType Watch Pitch MML.

(** The score with every letter in upper case. *)
Fixpoint upcase (s : string) : string :=
  match s with
  | EmptyString => EmptyString
  | String ch s' => String (toupper ch) (upcase s')
  end.

(** The score holds no NUL before its end. *)
Fixpoint no_nul (s : string) : bool :=
  match s with
  | EmptyString => true
  | String ch s' => negb (is_nul ch) && no_nul s'
  end.

(** The character of a decimal digit, and the string of a run of them. *)
Definition digit_char (d : Z) : ascii := of_code (code "0"%char + d).

Fixpoint digits_string (ds : list Z) (tail : string) : string :=
  match ds with
  | [] => tail
  | d :: ds' => String (digit_char d) (digits_string ds' tail)
  end.

(** The number a run of digits denotes, continuing from [acc]. *)
Definition decimal (acc : Z) (ds : list Z) : Z :=
  fold_left (fun a d => a * 10 + d) ds acc.

(** A token as the scanner can produce it: a rest carries its letter and
    no accidental, a note one of the letters A..G and an accidental among
    -1, 0 and +1. *)
Definition well_formed (t : token) : Prop :=
  if tok_is_rest t
  then In (tok_c t) ["R"; "P"]%char /\ tok_accidental t = 0
  else In (tok_c t) note_letters
       /\ (tok_accidental t = -1 \/ tok_accidental t = 0 \/ tok_accidental t = 1).

Definition is_note (t : token) : bool := negb (tok_is_rest t).

Definition is_delay (e : hw_event) : bool :=
  match e with
  | mml_delay_ms _ => true
  | _ => false
  end.

(** What a call made during a playback at tempo 120 in octave 4 may be:
    the display is written one character at digit 0, only the two
    accidental pixels are touched, tones lie between B3 (index 26) and C5
    (index 39), and no tone or pause is asked to last more than 2000 ms. *)
Definition in_bounds (e : hw_event) : Prop :=
  match e with
  | watch_display_string s position =>
      position = 0 /\ String.length s = 1%nat
  | watch_clear_display => False
  | watch_set_pixel com seg | watch_clear_pixel com seg =>
      com = 0 /\ (seg = 12 \/ seg = 15)
  | watch_set_buzzer_off => True
  | watch_buzzer_play_note note duration_ms =>
      (exists idx, note = BUZZER_NOTE idx /\ 26 <= idx <= 39)
      /\ 0 <= duration_ms <= 2000
  | mml_delay_ms ms => 0 <= ms <= 2000
  end.

End Score.

(* ------------------------------------------------------------------ *)
(** ** The face over a sequence of events                              *)
(* ------------------------------------------------------------------ *)

Module Lifecycle.
Import Watch MML Face.




End Lifecycle.

(* ================================================================== *)
(** * Properties                                                       *)
(* ================================================================== *)

Section MachineIntegers.
Import CInt.

Lemma int_of_small z : INT_MIN <= z <= INT_MAX -> int_of z = z.
Proof.
  unfold int_of, INT_MIN, INT_MAX. intros H.
  rewrite Z.mod_small by lia. lia.
Qed.

Lemma int_of_range z : INT_MIN <= int_of z <= INT_MAX.
Proof.
  unfold int_of, INT_MIN, INT_MAX.
  pose proof (Z.mod_pos_bound (z + 2147483648) 4294967296 eq_refl). lia.
Qed.

Lemma u8_of_small z : 0 <= z < 256 -> u8_of z = z.
Proof. intros H. unfold u8_of. now rewrite Z.mod_small. Qed.

Lemma u16_of_small z : 0 <= z < 65536 -> u16_of z = z.
Proof. intros H. unfold u16_of. now rewrite Z.mod_small. Qed.

Lemma u32_of_small z : 0 <= z < 4294967296 -> u32_of z = z.
Proof. intros H. unfold u32_of. now rewrite Z.mod_small. Qed.

End MachineIntegers.

Section CTypeFacts.
Import CType.

Lemma code_range c : 0 <= code c < 256.
Proof.
  unfold code. pose proof (N_ascii_bounded c). lia.
Qed.

Lemma code_inj c d : code c = code d -> c = d.
Proof.
  unfold code. intros H. apply N2Z.inj in H.
  rewrite <- (ascii_N_embedding c), <- (ascii_N_embedding d). now rewrite H.
Qed.

End CTypeFacts.

Section PitchResolver.
Import CInt Pitch.

Lemma clamp_idx_max_min idx : clamp_idx idx = Z.max 0 (Z.min 86 idx).
Proof.
  unfold clamp_idx.
  destruct (Z.ltb_spec idx 0); destruct (Z.ltb_spec 86 idx);
    try destruct (Z.ltb_spec 86 0); lia.
Qed.

Lemma clamp_idx_range idx : 0 <= clamp_idx idx <= 86.
Proof. rewrite clamp_idx_max_min. lia. Qed.

Lemma NOTE_INDEX_small octave semitone :
  0 <= octave <= 255 -> -24 <= semitone <= 24 ->
  NOTE_INDEX octave semitone = octave * 12 + semitone - 21.
Proof.
  intros Ho Hs. unfold NOTE_INDEX.
  rewrite (int_of_small (octave * 12)) by (unfold INT_MIN, INT_MAX; lia).
  rewrite (int_of_small (octave * 12 + semitone))
    by (unfold INT_MIN, INT_MAX; lia).
  rewrite int_of_small by (unfold INT_MIN, INT_MAX; lia). lia.
Qed.

Lemma switch_letter_spec_base letter :
  In letter note_letters ->
  switch_letter letter = Some (spec_base letter) /\ 0 <= spec_base letter <= 11.
Proof.
  unfold note_letters. simpl.
  intros [ <- | [ <- | [ <- | [ <- | [ <- | [ <- | [ <- | [] ]]]]]]];
    vm_compute; intuition discriminate.
Qed.

Lemma borrow_small semitone octave :
  -24 <= semitone <= 24 -> 0 <= octave <= 255 ->
  borrow (semitone, octave) =
  (if semitone <? 0 then semitone + 12 else semitone,
   if (semitone <? 0) && (octave >? 1) then octave - 1 else octave).
Proof.
  intros Hs Ho. unfold borrow.
  destruct (Z.ltb_spec semitone 0); [|reflexivity].
  rewrite int_of_small by (unfold INT_MIN, INT_MAX; lia).
  cbn [andb]. rewrite Z.gtb_ltb.
  destruct (Z.ltb_spec 1 octave); [|reflexivity].
  now rewrite u8_of_small by lia.
Qed.

Lemma carry_small semitone octave :
  -24 <= semitone <= 24 -> 0 <= octave <= 255 ->
  carry (semitone, octave) =
  (if semitone >=? 12 then semitone - 12 else semitone,
   if (semitone >=? 12) && (octave <? 8) then octave + 1 else octave).
Proof.
  intros Hs Ho. unfold carry. rewrite Z.geb_leb.
  destruct (Z.leb_spec 12 semitone); [|reflexivity].
  rewrite int_of_small by (unfold INT_MIN, INT_MAX; lia).
  cbn [andb].
  destruct (Z.ltb_spec octave 8); [|reflexivity].
  now rewrite u8_of_small by lia.
Qed.

(** The code's rollover agrees with the specification's on every
    [uint8_t] octave, and leaves the semitone in [0, 11]. *)
Lemma rollover_spec letter accidental octave :
  In letter note_letters ->
  -1 <= accidental <= 1 ->
  0 <= octave <= 255 ->
  rollover (spec_base letter) accidental octave
  = spec_rollover letter accidental octave
  /\ 0 <= fst (spec_rollover letter accidental octave) <= 11
  /\ 0 <= snd (spec_rollover letter accidental octave) <= 255.
Proof.
  intros Hin Hacc Hoct.
  destruct (switch_letter_spec_base letter Hin) as [_ Hb].
  unfold rollover, spec_rollover.
  rewrite int_of_small by (unfold INT_MIN, INT_MAX; lia).
  set (s0 := spec_base letter + accidental) in *.
  assert (Hs0 : -1 <= s0 <= 12) by (subst s0; lia).
  rewrite borrow_small by lia.
  assert (Hs1 : 0 <= (if s0 <? 0 then s0 + 12 else s0) <= 12)
    by (destruct (Z.ltb_spec s0 0); lia).
  assert (Ho1 : 0 <= (if (s0 <? 0) && (octave >? 1) then octave - 1 else octave)
                <= 255).
  { rewrite Z.gtb_ltb.
    destruct (Z.ltb_spec s0 0); destruct (Z.ltb_spec 1 octave); cbn [andb]; lia. }
  rewrite carry_small by lia.
  split; [reflexivity|]. cbn [fst snd].
  set (s1 := if s0 <? 0 then s0 + 12 else s0) in *.
  set (o1 := if (s0 <? 0) && (octave >? 1) then octave - 1 else octave) in *.
  rewrite Z.geb_leb.
  destruct (Z.leb_spec 12 s1); destruct (Z.ltb_spec o1 8); cbn [andb]; lia.
Qed.

End PitchResolver.

(* ------------------------------------------------------------------ *)
(** ** Scanning                                                        *)
(* ------------------------------------------------------------------ *)

Section Scanning.
Import CInt CType Watch Pitch MML.

Lemma skip_separators_le p :
  (String.length (skip_separators p) <= String.length p)%nat.
Proof.
  induction p as [|ch p IH]; simpl; [lia|].
  destruct (is_separator ch); simpl; lia.
Qed.

Lemma skip_separators_head p :
  is_separator (deref (skip_separators p)) = false.
Proof.
  induction p as [|ch p IH]; simpl; [reflexivity|].
  destruct (is_separator ch) eqn:E; [exact IH | exact E].
Qed.

Lemma skip_separators_stop ch p :
  is_separator ch = false -> skip_separators (String ch p) = String ch p.
Proof. intros H. simpl. now rewrite H. Qed.

Lemma parse_accidental_le p :
  (String.length (snd (parse_accidental p)) <= String.length p)%nat.
Proof.
  unfold parse_accidental.
  destruct (_ || _); [|destruct (Ascii.eqb _ _)];
    destruct p; simpl; lia.
Qed.

Lemma parse_length_le p : forall len,
  (String.length (snd (parse_length len p)) <= String.length p)%nat.
Proof.
  induction p as [|ch p IH]; intros len; simpl; [lia|].
  destruct (isdigit ch); simpl; [|lia].
  specialize (IH (int_of (int_of (len * 10) + (code ch - code "0")))). lia.
Qed.

(** The digit loop stops at once on a character that is not a digit. *)
Lemma parse_length_no_digit len p :
  isdigit (deref p) = false -> parse_length len p = (len, p).
Proof.
  destruct p as [|ch p]; simpl; [reflexivity|].
  now intros ->.
Qed.

Lemma classify_le c p is_rest accidental p' :
  classify c p = Some (is_rest, accidental, p') ->
  (String.length p' <= String.length p)%nat.
Proof.
  unfold classify.
  destruct (_ || _).
  - intros [= _ _ <-]. lia.
  - destruct (_ && _); [|discriminate].
    pose proof (parse_accidental_le p) as H.
    destruct (parse_accidental p) as [a q]. intros [= _ _ <-]. exact H.
Qed.

Lemma is_nul_deref_false p :
  is_nul (deref p) = false -> exists ch p', p = String ch p'.
Proof.
  destruct p as [|ch p']; [discriminate|]. intros _. now exists ch, p'.
Qed.

(** Every iteration that does not leave the loop moves the cursor
    forward by at least one character. *)
Lemma scan_advances default_len p :
  match scan default_len p with
  | Break => True
  | Continue p' | Token _ p' => (String.length p' < String.length p)%nat
  end.
Proof.
  unfold scan.
  pose proof (skip_separators_le p) as Hskip.
  destruct (is_nul (deref (skip_separators p))) eqn:Hnul; [exact I|].
  destruct (is_nul_deref_false _ Hnul) as (ch & q & Hq).
  rewrite Hq in *. cbn [deref advance String.length] in *.
  destruct (classify (toupper ch) q) as [[[is_rest accidental] q1]|] eqn:Hc.
  - apply classify_le in Hc.
    pose proof (parse_length_le q1 0) as Hlen.
    destruct (parse_length 0 q1) as [len q2]. cbn [snd] in Hlen. lia.
  - lia.
Qed.

End Scanning.

(* ------------------------------------------------------------------ *)
(** ** The playback loop                                               *)
(* ------------------------------------------------------------------ *)

Section Loop.
Import CInt CType Watch Pitch MML.
Variables (tempo_bpm default_len octave : Z).

Lemma mml_loop_terminates fuel : forall p,
  (String.length p < fuel)%nat ->
  exists t, mml_loop tempo_bpm default_len octave fuel p = Some t.
Proof.
  induction fuel as [|fuel IH]; intros p Hp; [lia|].
  cbn [mml_loop].
  destruct (is_nul (deref p)); [now exists []|].
  pose proof (scan_advances default_len p) as Hadv.
  destruct (scan default_len p) as [|p'|t p']; [now exists []| |].
  - apply IH. lia.
  - destruct (IH p') as [tr ->]; [lia|]. now eexists.
Qed.

(** With enough fuel the result no longer depends on the fuel. *)
Lemma mml_loop_fuel fuel1 : forall fuel2 p,
  (String.length p < fuel1)%nat -> (String.length p < fuel2)%nat ->
  mml_loop tempo_bpm default_len octave fuel1 p
  = mml_loop tempo_bpm default_len octave fuel2 p.
Proof.
  induction fuel1 as [|fuel1 IH]; intros fuel2 p H1 H2; [lia|].
  destruct fuel2 as [|fuel2]; [lia|].
  cbn [mml_loop].
  destruct (is_nul (deref p)); [reflexivity|].
  pose proof (scan_advances default_len p) as Hadv.
  destruct (scan default_len p) as [|p'|t p']; [reflexivity| |].
  - apply IH; lia.
  - f_equal. apply IH; lia.
Qed.

(** The loop renders exactly the tokens it scans, in order. *)
Lemma mml_loop_tokens fuel : forall p,
  mml_loop tempo_bpm default_len octave fuel p
  = option_map (flat_map (render tempo_bpm octave))
               (mml_tokens default_len fuel p).
Proof.
  induction fuel as [|fuel IH]; intros p; [reflexivity|].
  cbn [mml_loop mml_tokens].
  destruct (is_nul (deref p)); [reflexivity|].
  destruct (scan default_len p) as [|p'|t p']; [reflexivity|apply IH|].
  rewrite IH. now destruct (mml_tokens default_len fuel p').
Qed.

Lemma mml_tokens_terminates fuel : forall p,
  (String.length p < fuel)%nat ->
  exists ts, mml_tokens default_len fuel p = Some ts.
Proof.
  intros p Hp.
  destruct (mml_loop_terminates fuel p Hp) as [t Ht].
  rewrite mml_loop_tokens in Ht.
  destruct (mml_tokens default_len fuel p) as [ts|]; [now exists ts|discriminate].
Qed.

Lemma mml_tokens_fuel fuel1 : forall fuel2 p,
  (String.length p < fuel1)%nat -> (String.length p < fuel2)%nat ->
  mml_tokens default_len fuel1 p = mml_tokens default_len fuel2 p.
Proof.
  induction fuel1 as [|fuel1 IH]; intros fuel2 p H1 H2; [lia|].
  destruct fuel2 as [|fuel2]; [lia|].
  cbn [mml_tokens].
  destruct (is_nul (deref p)); [reflexivity|].
  pose proof (scan_advances default_len p) as Hadv.
  destruct (scan default_len p) as [|p'|t p']; [reflexivity| |].
  - apply IH; lia.
  - f_equal. apply IH; lia.
Qed.

Lemma tokenize_enough fuel s :
  (String.length s < fuel)%nat ->
  mml_tokens default_len fuel s = Some (tokenize default_len s).
Proof.
  intros Hfuel. unfold tokenize, enough_fuel.
  rewrite (mml_tokens_fuel fuel (S (String.length s)) s) by lia.
  destruct (mml_tokens_terminates (S (String.length s)) s) as [ts ->]; [lia|].
  reflexivity.
Qed.

(** Playing a score is rendering its tokens one after the other and then
    cleaning up. *)
Lemma play_tokenize s :
  play tempo_bpm default_len octave (Some s)
  = flat_map (render tempo_bpm octave) (tokenize default_len s) ++ cleanup.
Proof.
  unfold play, tokenize. rewrite mml_loop_tokens.
  destruct (mml_tokens_terminates (enough_fuel s) s) as [ts ->];
    [unfold enough_fuel; lia|].
  reflexivity.
Qed.

Lemma play_fuel_enough fuel s :
  (String.length s < fuel)%nat ->
  play_fuel tempo_bpm default_len octave fuel (Some s)
  = Some (play tempo_bpm default_len octave (Some s)).
Proof.
  intros Hfuel. unfold play_fuel, play, enough_fuel.
  rewrite (mml_loop_fuel fuel (S (String.length s)) s) by lia.
  destruct (mml_loop_terminates (S (String.length s)) s) as [t ->]; [lia|].
  reflexivity.
Qed.

Lemma play_ends_with_cleanup s :
  exists t, play tempo_bpm default_len octave (Some s) = t ++ cleanup.
Proof.
  unfold play, enough_fuel.
  destruct (mml_loop_terminates (S (String.length s)) s) as [t ->]; [lia|].
  now exists t.
Qed.

(** A score of separators only: the first iteration leaves the loop. *)
Lemma only_separators_skip s :
  only_separators s = true -> skip_separators s = EmptyString.
Proof.
  induction s as [|ch s IH]; simpl; [reflexivity|].
  destruct (is_separator ch); simpl; [exact IH|discriminate].
Qed.

Lemma only_separators_scan s :
  only_separators s = true -> scan default_len s = Break.
Proof.
  intros H. unfold scan. now rewrite (only_separators_skip s H).
Qed.

End Loop.

(* ------------------------------------------------------------------ *)
(** ** The hardware after the cleanup                                  *)
(* ------------------------------------------------------------------ *)

Section Hardware.
Import Watch MML.

Lemma run_app hw t1 t2 : run hw (t1 ++ t2) = run (run hw t1) t2.
Proof. unfold run. apply fold_left_app. Qed.

Lemma run_cleanup hw :
  let hw' := run hw cleanup in
  digit hw' 0 = " "%char /\ pixel hw' 0 12 = false /\ pixel hw' 0 15 = false
  /\ buzzer_on hw' = false.
Proof. repeat split. Qed.

End Hardware.

(* ------------------------------------------------------------------ *)
(** ** The pitch resolver                                              *)
(* ------------------------------------------------------------------ *)

Section PitchClaims.
Import CInt CType Pitch.

(** C1.  For a note letter A..G, an accidental among -1, 0, +1 and any
    starting octave a [uint8_t] can hold, [note_from_mml] returns the
    index the specification describes: the table base plus the accidental,
    12 added and the octave decremented (only above 1) when the sum is
    negative, then 12 subtracted and the octave incremented (only below 8)
    when it is 12 or more, and [octave * 12 + semitone - 21] clamped to
    [0, 86]. *)
Theorem note_from_mml_resolves letter accidental octave :
  In letter note_letters ->
  accidental = -1 \/ accidental = 0 \/ accidental = 1 ->
  0 <= octave <= 255 ->
  note_from_mml letter accidental octave
  = BUZZER_NOTE (spec_resolve letter accidental octave).
Proof.
  intros Hin Hacc Hoct.
  assert (Ha : -1 <= accidental <= 1) by lia.
  destruct (switch_letter_spec_base letter Hin) as [Hsw _].
  destruct (rollover_spec letter accidental octave Hin Ha Hoct)
    as (Hroll & Hs & Ho).
  unfold note_from_mml, spec_resolve. rewrite Hsw, Hroll.
  destruct (spec_rollover letter accidental octave) as [s o].
  cbn [fst snd] in Hs, Ho.
  rewrite NOTE_INDEX_small by lia.
  now rewrite clamp_idx_max_min.
Qed.

Lemma note_from_mml_resolves_witness :
  note_from_mml "C" (-1) 1 = BUZZER_NOTE (spec_resolve "C" (-1) 1).
Proof.
  apply (note_from_mml_resolves "C" (-1) 1).
  - unfold note_letters. simpl. right. right. left. reflexivity.
  - left. reflexivity.
  - lia.
Defined.

(** C2.  For a note letter A..G, an accidental among -1, 0, +1 and an
    octave from 1 to 8, [note_from_mml] returns a table index between 0 and
    86, never the rest sentinel, and the octave it resolves against stays
    between 1 and 8.  For C flat in octave 1 the octave stays 1 and the
    index is 2. *)
Theorem note_from_mml_in_table letter accidental octave :
  In letter note_letters ->
  accidental = -1 \/ accidental = 0 \/ accidental = 1 ->
  1 <= octave <= 8 ->
  (exists idx, note_from_mml letter accidental octave = BUZZER_NOTE idx
               /\ 0 <= idx <= 86)
  /\ note_from_mml letter accidental octave <> BUZZER_NOTE_REST
  /\ 1 <= snd (rollover (spec_base letter) accidental octave) <= 8
  /\ rollover (spec_base "C") (-1) 1 = (11, 1)
  /\ note_from_mml "C" (-1) 1 = BUZZER_NOTE 2.
Proof.
  intros Hin Hacc Hoct.
  assert (Ha : -1 <= accidental <= 1) by lia.
  destruct (switch_letter_spec_base letter Hin) as [Hsw Hb].
  destruct (rollover_spec letter accidental octave Hin Ha) as (Hroll & _ & _);
    [lia|].
  assert (Hnote : note_from_mml letter accidental octave
                  = BUZZER_NOTE (clamp_idx
                      (NOTE_INDEX
                         (snd (rollover (spec_base letter) accidental octave))
                         (fst (rollover (spec_base letter) accidental octave))))).
  { unfold note_from_mml. rewrite Hsw.
    now destruct (rollover (spec_base letter) accidental octave). }
  split; [|split; [|split; [|split]]].
  - eexists. split; [exact Hnote|]. apply clamp_idx_range.
  - rewrite Hnote. discriminate.
  - rewrite Hroll. unfold spec_rollover. cbn [snd].
    set (s0 := spec_base letter + accidental).
    rewrite Z.gtb_ltb, Z.geb_leb.
    destruct (Z.ltb_spec s0 0); destruct (Z.ltb_spec 1 octave); cbn [andb];
      match goal with
      | |- context [if (?a <=? ?b) && (?c <? 8) then _ else _] =>
          destruct (Z.leb_spec a b); destruct (Z.ltb_spec c 8); cbn [andb]
      end; lia.
  - reflexivity.
  - reflexivity.
Qed.

Lemma note_from_mml_in_table_witness :
  (exists idx, note_from_mml "B" 1 8 = BUZZER_NOTE idx /\ 0 <= idx <= 86)
  /\ note_from_mml "B" 1 8 <> BUZZER_NOTE_REST
  /\ 1 <= snd (rollover (spec_base "B") 1 8) <= 8
  /\ rollover (spec_base "C") (-1) 1 = (11, 1)
  /\ note_from_mml "C" (-1) 1 = BUZZER_NOTE 2.
Proof.
  apply (note_from_mml_in_table "B" 1 8).
  - unfold note_letters. simpl. right. left. reflexivity.
  - right. right. reflexivity.
  - lia.
Defined.

(** Outside the letters A..G the resolver answers with the rest sentinel. *)
Lemma note_from_mml_other_letter :
  note_from_mml "R" 0 4 = BUZZER_NOTE_REST
  /\ note_from_mml "c" 0 4 = BUZZER_NOTE_REST.
Proof. split; reflexivity. Qed.

(** Neighbouring semitones resolve to neighbouring indices. *)
Lemma note_from_mml_c4_c_sharp4 :
  note_from_mml "C" 0 4 = BUZZER_NOTE 27
  /\ note_from_mml "C" 1 4 = BUZZER_NOTE 28.
Proof. split; reflexivity. Qed.

End PitchClaims.

(* ------------------------------------------------------------------ *)
(** ** The duration calculator                                         *)
(* ------------------------------------------------------------------ *)

Section DurationClaims.
Import CInt CType MML.

(** C3.  For a positive tempo and a note length of at least 1 (within
    [int]), the duration the loop computes is
    [(4 * (60000 / tempo_bpm)) / len] in truncating integer division, the
    multiplication by 4 coming before the division by the length; no
    32-bit wrap-around interferes. *)
Theorem dur_ms_formula tempo_bpm len :
  0 < tempo_bpm ->
  1 <= len <= INT_MAX ->
  dur_ms tempo_bpm len = (4 * (60000 / tempo_bpm)) / len
  /\ dur_ms tempo_bpm len = Z.quot (4 * Z.quot 60000 tempo_bpm) len.
Proof.
  intros Ht Hl. unfold INT_MAX in Hl.
  assert (Hq : 0 <= 60000 / tempo_bpm <= 60000).
  { split; [apply Z.div_pos; lia|].
    apply Z.div_le_upper_bound; nia. }
  assert (Hd : 0 <= 4 * (60000 / tempo_bpm) / len <= 240000).
  { split; [apply Z.div_pos; lia|].
    apply Z.div_le_upper_bound; nia. }
  assert (E : dur_ms tempo_bpm len = 4 * (60000 / tempo_bpm) / len).
  { unfold dur_ms, quarter_ms.
    rewrite (u32_of_small (60000 / tempo_bpm)) by lia.
    rewrite (u32_of_small (4 * _)) by lia.
    rewrite (u32_of_small len) by lia.
    apply u32_of_small. lia. }
  split; [exact E|].
  rewrite E.
  rewrite (Z.quot_div_nonneg 60000 tempo_bpm) by lia.
  rewrite Z.quot_div_nonneg by lia. reflexivity.
Qed.

Lemma dur_ms_formula_witness :
  dur_ms 120 8 = (4 * (60000 / 120)) / 8
  /\ dur_ms 120 8 = Z.quot (4 * Z.quot 60000 120) 8.
Proof.
  apply (dur_ms_formula 120 8); unfold INT_MAX; lia.
Defined.

(** Dividing first would lose precision: an eighth note at tempo 120 lasts
    250 ms, not [4 * (500 / 8) = 248]. *)
Lemma dur_ms_multiplies_first :
  dur_ms 120 8 = 250 /\ 4 * (quarter_ms 120 / 8) = 248.
Proof. split; reflexivity. Qed.

(** The length the scanner hands to the duration calculator is at least 1
    and fits an [int], provided the default length does. *)
Lemma parse_length_range p : forall len,
  INT_MIN <= len <= INT_MAX ->
  INT_MIN <= fst (parse_length len p) <= INT_MAX.
Proof.
  induction p as [|ch p IH]; intros len Hlen; simpl; [exact Hlen|].
  destruct (isdigit ch); [|exact Hlen].
  apply IH. apply int_of_range.
Qed.

Lemma scan_len_range default_len p t p' :
  1 <= default_len <= 255 ->
  scan default_len p = Token t p' ->
  1 <= tok_len t <= INT_MAX.
Proof.
  intros Hd. unfold scan.
  destruct (is_nul _); [discriminate|].
  destruct (classify _ _) as [[[is_rest accidental] q]|]; [|discriminate].
  pose proof (parse_length_range q 0) as Hr.
  destruct (parse_length 0 q) as [len q']. cbn [fst] in Hr.
  intros [= <- _]. cbn [tok_len].
  unfold INT_MIN, INT_MAX in *.
  destruct (Z.leb_spec len 0); lia.
Qed.

End DurationClaims.

(* ------------------------------------------------------------------ *)
(** ** The tokenizer                                                   *)
(* ------------------------------------------------------------------ *)

Section TokenizerClaims.
Import CInt CType Watch Pitch MML.
Local Open Scope string_scope.
Local Open Scope Z_scope.

(** C5.  The score "c8 d-8 r4" is scanned into exactly three tokens, in
    order: the note C, natural, length 8; the note D, flat, length 8; and
    a rest of length 4.  The lengths are all explicit, so the default
    length plays no part. *)
Theorem tokenize_c8_dflat8_r4 : forall default_len,
  tokenize default_len "c8 d-8 r4"
  = [mk_token "C" 0 false 8; mk_token "D" (-1) false 8; mk_token "R" 0 true 4]
  /\ map spec_token_of (tokenize default_len "c8 d-8 r4")
     = [Some (Note LC 0 8); Some (Note LD (-1) 8); Some (Rest 4)]
  /\ List.length (tokenize default_len "c8 d-8 r4") = 3%nat.
Proof.
  intros default_len.
  assert (E : tokenize default_len "c8 d-8 r4"
              = [mk_token "C" 0 false 8; mk_token "D" (-1) false 8;
                 mk_token "R" 0 true 4]) by reflexivity.
  rewrite E. repeat split.
Qed.

(** C6, as stated, fails: the digits after a rest letter are consumed as
    the length of the rest.  Scanning "r8" leaves nothing behind, and the
    rest has length 8, not the default. *)
Lemma rest_consumes_its_length :
  scan 4 "r8" = Token (mk_token "R" 0 true 8) ""
  /\ ~ (forall c p, In c rest_letters ->
          exists t, scan 4 (String c p) = Token t p /\ tok_is_rest t = true).
Proof.
  split; [reflexivity|].
  intros H. destruct (H "r"%char "8") as (t & Ht & _).
  - unfold rest_letters. simpl. right. right. left. reflexivity.
  - discriminate Ht.
Qed.

(** C6, amended.  On an R or P in either case the scanner produces a rest
    token and parses no accidental; the digits that follow the letter are
    still consumed as the length of the rest, the default length standing
    in when there are none or their value is not positive.  So a [+], [#]
    or [-] after the letter, and more generally anything but a digit, is
    left for the next iteration. *)
Theorem scan_rest default_len c p :
  In c rest_letters ->
  scan default_len (String c p)
  = Token (mk_token (toupper c) 0 true
             (if fst (parse_length 0 p) <=? 0 then default_len
              else fst (parse_length 0 p)))
          (snd (parse_length 0 p))
  /\ (isdigit (deref p) = false ->
      scan default_len (String c p)
      = Token (mk_token (toupper c) 0 true default_len) p).
Proof.
  intros Hin.
  assert (E : scan default_len (String c p)
              = Token (mk_token (toupper c) 0 true
                         (if fst (parse_length 0 p) <=? 0 then default_len
                          else fst (parse_length 0 p)))
                      (snd (parse_length 0 p))).
  { unfold rest_letters in Hin. simpl in Hin.
    destruct Hin as [ <- | [ <- | [ <- | [ <- | [] ]]]];
      unfold scan; cbn [skip_separators]; cbv [is_separator Ascii.eqb Bool.eqb orb];
      cbn [deref advance]; cbv [is_nul NUL zero Ascii.eqb Bool.eqb andb];
      change (toupper "R") with "R"%char; change (toupper "P") with "P"%char;
      change (toupper "r") with "R"%char; change (toupper "p") with "P"%char;
      cbv [classify Ascii.eqb Bool.eqb orb andb];
      destruct (parse_length 0 p); reflexivity. }
  split; [exact E|].
  intros Hd. rewrite E, (parse_length_no_digit 0 p Hd). reflexivity.
Qed.

Lemma scan_rest_witness :
  scan 4 "r-8"
  = Token (mk_token (toupper "r") 0 true
             (if fst (parse_length 0 "-8") <=? 0 then 4
              else fst (parse_length 0 "-8")))
          (snd (parse_length 0 "-8"))
  /\ (isdigit (deref "-8") = false ->
      scan 4 "r-8" = Token (mk_token (toupper "r") 0 true 4) "-8").
Proof.
  apply (scan_rest 4 "r" "-8").
  unfold rest_letters. simpl. right. right. left. reflexivity.
Defined.

(** A character that opens no token is neither a separator, nor the NUL,
    nor a letter of a note or a rest. *)
Lemma unrecognized_classify c p :
  ~ In c token_letters -> classify (toupper c) p = None.
Proof.
  intros Hc.
  destruct (classify (toupper c) p) eqn:E; [exfalso|reflexivity].
  apply Hc. clear Hc.
  assert (H : (Ascii.eqb (toupper c) "R" || Ascii.eqb (toupper c) "P"
               || (code "A" <=? code (toupper c)) && (code (toupper c) <=? code "G"))
              = true).
  { unfold classify in E.
    destruct (Ascii.eqb (toupper c) "R" || Ascii.eqb (toupper c) "P");
      [reflexivity|].
    destruct ((code "A" <=? code (toupper c)) && (code (toupper c) <=? code "G"));
      [reflexivity|discriminate]. }
  clear E.
  destruct c as [b0 b1 b2 b3 b4 b5 b6 b7].
  destruct b0, b1, b2, b3, b4, b5, b6, b7;
    try discriminate H; vm_compute; tauto.
Qed.

(** C8.  At the place where a token would start, a character that is
    not the NUL, not a space, tab or bar and not one of A-G, R, P in
    either case is stepped over: the iteration ends in [continue] with the
    cursor just past the character, it emits no token and makes no call to
    the watch library, and the loop goes on with the rest of the score.
    The loop has no error outcome. *)
Theorem scan_skips_unrecognized default_len c p :
  c <> NUL ->
  is_separator c = false ->
  ~ In c token_letters ->
  scan default_len (String c p) = Continue p
  /\ (forall fuel,
        mml_tokens default_len (S fuel) (String c p)
        = mml_tokens default_len fuel p)
  /\ (forall tempo_bpm octave fuel,
        mml_loop tempo_bpm default_len octave (S fuel) (String c p)
        = mml_loop tempo_bpm default_len octave fuel p).
Proof.
  intros Hnul Hsep Hc.
  assert (Hn : is_nul c = false).
  { unfold is_nul. destruct (Ascii.eqb_spec c NUL); [contradiction|reflexivity]. }
  assert (E : scan default_len (String c p) = Continue p).
  { unfold scan. rewrite (skip_separators_stop c p Hsep).
    cbn [deref advance]. rewrite Hn.
    now rewrite (unrecognized_classify c p Hc). }
  split; [exact E|]. split.
  - intros fuel. cbn [mml_tokens deref]. now rewrite Hn, E.
  - intros tempo_bpm octave fuel. cbn [mml_loop deref]. now rewrite Hn, E.
Qed.

Lemma scan_skips_unrecognized_witness :
  scan 4 "x c4" = Continue " c4"
  /\ (forall fuel, mml_tokens 4 (S fuel) "x c4" = mml_tokens 4 fuel " c4")
  /\ (forall tempo_bpm octave fuel,
        mml_loop tempo_bpm 4 octave (S fuel) "x c4"
        = mml_loop tempo_bpm 4 octave fuel " c4").
Proof.
  apply (scan_skips_unrecognized 4 "x" " c4").
  - discriminate.
  - reflexivity.
  - unfold token_letters, note_letters, rest_letters. simpl.
    intros H. repeat (destruct H as [H|H]; [discriminate H|]). exact H.
Defined.

(** Digits and accidental signs that follow no note letter are skipped
    one at a time, like any other unrecognized character. *)
Lemma tokenize_stray_modifiers :
  tokenize 4 "r-8 +c" = [mk_token "R" 0 true 4; mk_token "C" 0 false 4].
Proof. reflexivity. Qed.

End TokenizerClaims.

(* ------------------------------------------------------------------ *)
(** ** The playback scheduler and the face loop                        *)
(* ------------------------------------------------------------------ *)

Section PlaybackClaims.
Import CInt CType Watch Pitch MML Face.
Local Open Scope string_scope.
Local Open Scope Z_scope.
Local Open Scope list_scope.

(** C4.  Playing "c4" at tempo 120 with default length 4 makes exactly
    one tone command, for 500 ms; the note display is blanked afterwards
    by the cleanup, and a press of the light button that plays this score
    from the idle state returns with [is_playing] false again. *)
Theorem play_c4 :
  mml_play_blocking (Some "c4")
  = [watch_clear_pixel 0 12; watch_clear_pixel 0 15;
     watch_display_string "c" 0;
     watch_buzzer_play_note (BUZZER_NOTE 27) 500;
     watch_clear_pixel 0 12; watch_clear_pixel 0 15]
    ++ cleanup
  /\ tone_commands (mml_play_blocking (Some "c4"))
     = [watch_buzzer_play_note (BUZZER_NOTE 27) 500]
  /\ cleanup
     = [watch_display_string " " 0;
        watch_clear_pixel 0 12; watch_clear_pixel 0 15; watch_set_buzzer_off]
  /\ play_fuel 120 4 4 2 (Some "c4") = Some (mml_play_blocking (Some "c4"))
  /\ face_loop (Some "c4") EVENT_LIGHT_BUTTON_UP (mk_state false)
     = Returned true (mk_state false)
         ([watch_clear_display; watch_display_string "play" 5]
          ++ mml_play_blocking (Some "c4")
          ++ [watch_display_string "done" 5]).
Proof. repeat split. Qed.

(** In the real face the score is the built-in tune. *)
Lemma demo_mml_tone_commands :
  List.length (tokenize 4 demo_mml) = 18%nat
  /\ List.length (tone_commands (mml_play_blocking (Some demo_mml))) = 16%nat.
Proof. split; reflexivity. Qed.

(** C7.  A press of the light button while [is_playing] is true starts
    nothing: the loop returns at once, the player state is what it was and
    no call to the watch library is made, so the hardware is untouched. *)
Theorem light_button_while_playing score state :
  is_playing state = true ->
  face_loop score EVENT_LIGHT_BUTTON_UP state = Returned true state []
  /\ mml_player_face_loop EVENT_LIGHT_BUTTON_UP state = Returned true state []
  /\ forall hw, run hw [] = hw.
Proof.
  intros H. unfold mml_player_face_loop, face_loop. rewrite H.
  repeat split.
Qed.

Lemma light_button_while_playing_witness :
  face_loop (Some "c4") EVENT_LIGHT_BUTTON_UP (mk_state true)
  = Returned true (mk_state true) []
  /\ mml_player_face_loop EVENT_LIGHT_BUTTON_UP (mk_state true)
     = Returned true (mk_state true) []
  /\ forall hw, run hw [] = hw.
Proof.
  apply (light_button_while_playing (Some "c4") (mk_state true)).
  reflexivity.
Defined.

(** From the idle state the same press does start the playback. *)
Lemma light_button_while_idle score :
  face_loop score EVENT_LIGHT_BUTTON_UP (mk_state false)
  = Returned true (mk_state false)
      ([watch_clear_display; watch_display_string "play" 5]
       ++ mml_play_blocking score
       ++ [watch_display_string "done" 5]).
Proof. reflexivity. Qed.

(** C9.  For every score the loop terminates: each iteration that does
    not leave the loop moves the cursor strictly forward, so one iteration
    more than the score has characters is always enough.  After the loop
    the cleanup runs whatever was played: the note display is blanked, both
    accidental pixels are cleared and the buzzer is switched off, and the
    press of the light button that started the playback returns with
    [is_playing] false.  A score of separators only (the empty score
    included) yields no token and no call but the cleanup. *)
Theorem playback_terminates_and_cleans_up s :
  (forall default_len p,
     match scan default_len p with
     | Break => True
     | Continue p' | Token _ p' => (String.length p' < String.length p)%nat
     end)
  /\ (forall tempo_bpm default_len octave fuel,
        (String.length s < fuel)%nat ->
        play_fuel tempo_bpm default_len octave fuel (Some s)
        = Some (play tempo_bpm default_len octave (Some s)))
  /\ (forall tempo_bpm default_len octave,
        exists t, play tempo_bpm default_len octave (Some s) = t ++ cleanup)
  /\ cleanup
     = [watch_display_string " " 0;
        watch_clear_pixel 0 12; watch_clear_pixel 0 15; watch_set_buzzer_off]
  /\ (forall hw,
        let hw' := run hw (mml_play_blocking (Some s)) in
        digit hw' 0 = " "%char /\ pixel hw' 0 12 = false
        /\ pixel hw' 0 15 = false /\ buzzer_on hw' = false)
  /\ (exists calls,
        face_loop (Some s) EVENT_LIGHT_BUTTON_UP (mk_state false)
        = Returned true (mk_state false) calls)
  /\ (only_separators s = true ->
      forall tempo_bpm default_len octave,
        tokenize default_len s = []
        /\ play tempo_bpm default_len octave (Some s) = cleanup).
Proof.
  split; [intros; apply scan_advances|].
  split; [intros; now apply play_fuel_enough|].
  split; [intros; apply play_ends_with_cleanup|].
  split; [reflexivity|].
  split.
  { intros hw. unfold mml_play_blocking.
    destruct (play_ends_with_cleanup 120 4 4 s) as [t ->].
    rewrite run_app. apply run_cleanup. }
  split; [eexists; reflexivity|].
  intros Hsep tempo_bpm default_len octave.
  pose proof (only_separators_scan default_len s Hsep) as Hscan.
  unfold tokenize, play, enough_fuel. cbn [mml_tokens mml_loop].
  rewrite Hscan. destruct (is_nul (deref s)); split; reflexivity.
Qed.

Lemma playback_terminates_and_cleans_up_witness :
  only_separators "   |  " = true
  /\ tokenize 4 "   |  " = []
  /\ mml_play_blocking (Some "   |  ") = cleanup.
Proof.
  split; [reflexivity|].
  apply (playback_terminates_and_cleans_up "   |  "). reflexivity.
Defined.

(** C10.  With a NULL score [mml_play_blocking] returns at once without a
    single call to the watch library, so the note display, the accidental
    pixels and the buzzer are as they were; the cleanup, which ends the
    playback of every score that is not NULL, the empty one included, does
    not run. *)
Theorem play_null_no_effect :
  mml_play_blocking None = []
  /\ (forall fuel, play_fuel 120 4 4 fuel None = Some [])
  /\ (forall hw, run hw (mml_play_blocking None) = hw)
  /\ mml_play_blocking (Some "") = cleanup
  /\ (forall s, exists t, mml_play_blocking (Some s) = t ++ cleanup)
  /\ (forall s, mml_play_blocking (Some s) <> mml_play_blocking None).
Proof.
  split; [reflexivity|].
  split; [reflexivity|].
  split; [reflexivity|].
  split; [reflexivity|].
  split; [intros s; apply play_ends_with_cleanup|].
  intros s. destruct (play_ends_with_cleanup 120 4 4 s) as [t Ht].
  unfold mml_play_blocking. rewrite Ht. cbn [play].
  destruct t; discriminate.
Qed.

End PlaybackClaims.

(* ================================================================== *)
(** * Further properties of the face                                   *)
(* ================================================================== *)

(* ------------------------------------------------------------------ *)
(** ** More on the pitch resolver                                      *)
(* ------------------------------------------------------------------ *)

Section PitchEdges.
Import CInt CType Pitch.

Ltac no_conditional t :=
  lazymatch t with
  | context [if _ then _ else _] => fail
  | _ => idtac
  end.

(** Case analysis on the comparisons of the goal, innermost first. *)
Ltac split_comparisons :=
  repeat (cbv beta iota;
          match goal with
          | |- context [?a >? ?b] => rewrite (Z.gtb_ltb a b)
          | |- context [?a >=? ?b] => rewrite (Z.geb_leb a b)
          | |- context [?a <? ?b] =>
              no_conditional a; no_conditional b; destruct (Z.ltb_spec a b)
          | |- context [?a <=? ?b] =>
              no_conditional a; no_conditional b; destruct (Z.leb_spec a b)
          | |- context [andb _ _] => progress cbn [andb]
          end);
  cbv beta iota.

Lemma switch_letter_some letter semitone :
  switch_letter letter = Some semitone ->
  In letter note_letters /\ semitone = spec_base letter.
Proof.
  destruct letter as [b0 b1 b2 b3 b4 b5 b6 b7].
  destruct b0, b1, b2, b3, b4, b5, b6, b7; cbv [switch_letter];
    try discriminate; intros [= <-]; vm_compute; tauto.
Qed.

Lemma spec_base_letter letter :
  In letter note_letters ->
  (spec_base letter = 11 <-> letter = "B"%char)
  /\ (spec_base letter = 0 <-> letter = "C"%char).
Proof.
  unfold note_letters. simpl.
  intros [ <- | [ <- | [ <- | [ <- | [ <- | [ <- | [ <- | [] ]]]]]]];
    vm_compute; intuition discriminate.
Qed.

(** The resolver in closed form, on the letters of notes. *)
Lemma note_from_mml_closed_form letter accidental octave :
  In letter note_letters ->
  -1 <= accidental <= 1 ->
  0 <= octave <= 255 ->
  note_from_mml letter accidental octave
  = BUZZER_NOTE (spec_resolve letter accidental octave).
Proof.
  intros Hin Ha Hoct.
  destruct (switch_letter_spec_base letter Hin) as [Hsw _].
  destruct (rollover_spec letter accidental octave Hin Ha Hoct)
    as (Hroll & Hs & Ho).
  unfold note_from_mml, spec_resolve. rewrite Hsw, Hroll.
  destruct (spec_rollover letter accidental octave) as [s o].
  cbn [fst snd] in Hs, Ho.
  rewrite NOTE_INDEX_small by lia.
  now rewrite clamp_idx_max_min.
Qed.

(** X1.  [note_from_mml] answers with the rest sentinel exactly on the
    letters outside the upper-case A..G, whatever the accidental and the
    octave are, and every index it returns lies in the table. *)
Theorem note_from_mml_rest_iff letter accidental octave :
  (note_from_mml letter accidental octave = BUZZER_NOTE_REST
   <-> ~ In letter note_letters)
  /\ (forall idx, note_from_mml letter accidental octave = BUZZER_NOTE idx ->
                  0 <= idx <= 86).
Proof.
  unfold note_from_mml.
  destruct (switch_letter letter) as [semitone|] eqn:Hsw.
  - apply switch_letter_some in Hsw. destruct Hsw as [Hin _].
    destruct (rollover semitone accidental octave) as [s o].
    split.
    + split; [discriminate|contradiction].
    + intros idx [= <-]. apply clamp_idx_range.
  - split.
    + split; [|reflexivity]. intros _ Hin.
      apply switch_letter_spec_base in Hin. destruct Hin as [Hin _].
      congruence.
    + discriminate.
Qed.

(** X2.  In the octaves 2 to 7 nothing is clamped: a note resolves to
    [octave * 12 + semitone - 21], a sharp to the index above it and a
    flat to the index below it, also across the octave boundary (C flat
    is the B below, B sharp the C above). *)
Theorem accidental_moves_one_index letter semitone octave :
  switch_letter letter = Some semitone ->
  2 <= octave <= 7 ->
  note_from_mml letter 0 octave = BUZZER_NOTE (octave * 12 + semitone - 21)
  /\ note_from_mml letter 1 octave
     = BUZZER_NOTE (octave * 12 + semitone - 21 + 1)
  /\ note_from_mml letter (-1) octave
     = BUZZER_NOTE (octave * 12 + semitone - 21 - 1).
Proof.
  intros Hsw Hoct.
  apply switch_letter_some in Hsw. destruct Hsw as [Hin ->].
  destruct (switch_letter_spec_base letter Hin) as [_ Hb].
  rewrite !note_from_mml_closed_form by (assumption || lia).
  unfold spec_resolve, spec_rollover. cbv zeta.
  repeat split; f_equal; split_comparisons; lia.
Qed.

Lemma accidental_moves_one_index_witness :
  note_from_mml "B" 0 4 = BUZZER_NOTE (4 * 12 + 11 - 21)
  /\ note_from_mml "B" 1 4 = BUZZER_NOTE (4 * 12 + 11 - 21 + 1)
  /\ note_from_mml "B" (-1) 4 = BUZZER_NOTE (4 * 12 + 11 - 21 - 1).
Proof.
  apply (accidental_moves_one_index "B" 11 4).
  - reflexivity.
  - lia.
Defined.

(** X3.  Over all octaves a [uint8_t] can hold, a sharp never resolves
    below the natural note except for B in octave 8, where the semitone
    wraps to 0 and the octave cannot rise; and a flat never resolves above
    the natural note except for C in octave 1, where the semitone wraps to
    11 and the octave cannot fall. *)
Theorem accidental_order letter octave n s f :
  In letter note_letters ->
  0 <= octave <= 255 ->
  note_from_mml letter 0 octave = BUZZER_NOTE n ->
  note_from_mml letter 1 octave = BUZZER_NOTE s ->
  note_from_mml letter (-1) octave = BUZZER_NOTE f ->
  (s < n <-> letter = "B"%char /\ octave = 8)
  /\ (n < f <-> letter = "C"%char /\ octave = 1).
Proof.
  intros Hin Hoct Hn Hs Hf.
  destruct (switch_letter_spec_base letter Hin) as [_ Hb].
  destruct (spec_base_letter letter Hin) as [HB HC].
  rewrite note_from_mml_closed_form in Hn, Hs, Hf by (assumption || lia).
  injection Hn as <-. injection Hs as <-. injection Hf as <-.
  rewrite <- HB, <- HC.
  unfold spec_resolve, spec_rollover. cbv zeta.
  split; split_comparisons; lia.
Qed.

Lemma accidental_order_witness :
  (75 < 86 <-> "B"%char = "B"%char /\ 8 = 8)
  /\ (86 < 85 <-> "B"%char = "C"%char /\ 8 = 1).
Proof.
  apply (accidental_order "B" 8 86 75 85).
  - unfold note_letters. simpl. right. left. reflexivity.
  - lia.
  - reflexivity.
  - reflexivity.
  - reflexivity.
Defined.

End PitchEdges.

(* ------------------------------------------------------------------ *)
(** ** The busy-wait                                                   *)
(* ------------------------------------------------------------------ *)

Section BusyWait.
Import CInt.

Lemma delay_loop_done clock ms start elapsed :
  ms <= elapsed -> Delay.delay_loop clock ms start elapsed = Some clock.
Proof.
  intros H. destruct clock; simpl; destruct (Z.ltb_spec elapsed ms);
    reflexivity || lia.
Qed.

Lemma wait_ticks_0 clock start : Delay.wait_ticks clock 0 start = Some clock.
Proof. now destruct clock. Qed.

(** A wait of up to a second ends with the first change of the second. *)
Lemma delay_loop_short clock : forall ms start,
  0 < ms <= 1000 ->
  Delay.delay_loop clock ms start 0 = Delay.wait_ticks clock 1 start.
Proof.
  induction clock as [|now clock IH]; intros ms start Hms; simpl;
    destruct (Z.ltb_spec 0 ms); try lia; [reflexivity|].
  destruct (Z.eqb_spec now start); cbn [negb].
  - now apply IH.
  - destruct (Z.leb_spec ms 1000); [|lia]. now destruct clock.
Qed.

(** A longer wait counts the changes of the second in steps of 1000 ms;
    up to 65000 ms the 16-bit counter does not wrap. *)
Lemma delay_loop_long clock ms : forall n start j,
  1000 < ms <= 65000 ->
  0 <= j ->
  ms <= 1000 * (j + Z.of_nat n) ->
  (n <> O -> 1000 * (j + Z.of_nat n - 1) < ms) ->
  Delay.delay_loop clock ms start (1000 * j) = Delay.wait_ticks clock n start.
Proof.
  induction clock as [|now clock IH]; intros n start j Hms Hj Hup Hlow.
  - destruct n as [|n]; simpl Delay.wait_ticks.
    + apply delay_loop_done. lia.
    + cbn [Delay.delay_loop].
      destruct (Z.ltb_spec (1000 * j) ms); [reflexivity|lia].
  - destruct n as [|n]; simpl Delay.wait_ticks.
    + apply delay_loop_done. lia.
    + cbn [Delay.delay_loop].
      assert (Hlt : 1000 * j < ms) by lia.
      destruct (Z.ltb_spec (1000 * j) ms); [|lia].
      destruct (Z.eqb_spec now start); cbn [negb].
      * apply IH; assumption.
      * destruct (Z.leb_spec ms 1000); [lia|].
        rewrite u16_of_small by lia.
        replace (1000 * j + 1000) with (1000 * (j + 1)) by lia.
        apply IH; lia.
Qed.

Lemma mml_delay_ms_wait_ticks ms start clock :
  0 <= ms <= 65000 ->
  Delay.mml_delay_ms ms (start :: clock)
  = Delay.wait_ticks clock (Delay.ticks_needed ms) start.
Proof.
  intros Hms. unfold Delay.mml_delay_ms, Delay.ticks_needed.
  destruct (Z.leb_spec ms 0).
  - rewrite wait_ticks_0. apply delay_loop_done. lia.
  - destruct (Z.leb_spec ms 1000).
    + apply delay_loop_short. lia.
    + change 0 with (1000 * 0) at 1.
      assert (Hq : 1000 * ((ms + 999) / 1000) <= ms + 999
                   /\ ms + 999 < 1000 * ((ms + 999) / 1000) + 1000).
      { pose proof (Z.div_mod (ms + 999) 1000).
        pose proof (Z.mod_pos_bound (ms + 999) 1000). lia. }
      assert (Hn : Z.of_nat (Z.to_nat ((ms + 999) / 1000)) = (ms + 999) / 1000).
      { apply Z2Nat.id. apply Z.div_pos; lia. }
      apply delay_loop_long; lia.
Qed.

(** X4.  For every [ms] up to 65000, [mml_delay_ms] lets the clock
    readings go by until the second has changed a number of times that
    depends on [ms] alone: not at all for 0, once for anything up to
    1000 ms, and [ms / 1000] rounded up beyond.  While the readings show
    fewer changes it keeps waiting. *)
Theorem mml_delay_ms_counts_ticks ms start clock :
  0 <= ms <= 65000 ->
  Delay.mml_delay_ms ms (start :: clock)
  = Delay.wait_ticks clock (Delay.ticks_needed ms) start.
Proof. exact (mml_delay_ms_wait_ticks ms start clock). Qed.

Lemma mml_delay_ms_counts_ticks_witness :
  Delay.mml_delay_ms 1500 [7; 7; 8; 8; 8; 9; 9]
  = Delay.wait_ticks [7; 8; 8; 8; 9; 9] (Delay.ticks_needed 1500) 7.
Proof.
  apply (mml_delay_ms_counts_ticks 1500 7 [7; 8; 8; 8; 9; 9]). lia.
Defined.

(** What the player asks for: a quarter note waits for one change of the
    second, a half note for one, a whole note for two. *)
Lemma ticks_needed_examples :
  Delay.ticks_needed 500 = 1%nat /\ Delay.ticks_needed 1000 = 1%nat
  /\ Delay.ticks_needed 2000 = 2%nat /\ Delay.ticks_needed 0 = 0%nat.
Proof. repeat split. Qed.

Lemma delay_loop_wraps clock ms : forall start elapsed,
  65528 < ms ->
  0 <= elapsed < 65536 ->
  elapsed mod 8 = 0 ->
  Delay.delay_loop clock ms start elapsed = None.
Proof.
  induction clock as [|now clock IH]; intros start elapsed Hms He H8;
    cbn [Delay.delay_loop];
    (destruct (Z.ltb_spec elapsed ms);
     [|pose proof (Z.div_mod elapsed 8); lia]); [reflexivity|].
  destruct (Z.eqb_spec now start); cbn [negb].
  - now apply IH.
  - destruct (Z.leb_spec ms 1000); [lia|].
    apply IH; [assumption| |]; unfold u16_of.
    + apply Z.mod_pos_bound. lia.
    + pose proof (Z.div_mod (elapsed + 1000) 65536).
      pose proof (Z.mod_pos_bound (elapsed + 1000) 65536).
      pose proof (Z.div_mod elapsed 8).
      pose proof (Z.div_mod ((elapsed + 1000) mod 65536) 8).
      pose proof (Z.mod_pos_bound ((elapsed + 1000) mod 65536) 8).
      lia.
Qed.

(** X5.  For [ms] from 65529 to 65535 the wait never ends, whatever the
    clock reads and however long: [elapsed] advances by 1000 modulo 65536,
    stays a multiple of 8 and so never reaches [ms]. *)
Theorem mml_delay_ms_never_ends ms clock :
  65528 < ms <= 65535 ->
  Delay.mml_delay_ms ms clock = None.
Proof.
  intros Hms. destruct clock as [|start clock]; [reflexivity|].
  apply delay_loop_wraps; [lia|lia|reflexivity].
Qed.

Lemma mml_delay_ms_never_ends_witness :
  Delay.mml_delay_ms 65535 [0; 1; 2; 3; 4; 5] = None.
Proof.
  apply (mml_delay_ms_never_ends 65535 [0; 1; 2; 3; 4; 5]). lia.
Defined.

End BusyWait.

(* ------------------------------------------------------------------ *)
(** ** More on the tokenizer                                           *)
(* ------------------------------------------------------------------ *)

Section TokenStream.
Import CInt CType Watch Pitch MML Score.
Local Open Scope string_scope.
Local Open Scope Z_scope.
Local Open Scope list_scope.

(** The loop test [while ( *p)] adds nothing to the test after the
    separators: at the NUL the scan breaks at once. *)
Lemma scan_nul default_len p :
  is_nul (deref p) = true -> scan default_len p = Break.
Proof.
  destruct p as [|ch p]; [reflexivity|].
  cbn [deref]. unfold is_nul. intros H.
  apply Ascii.eqb_eq in H. subst ch. reflexivity.
Qed.

(** The token stream, one iteration at a time and without fuel. *)
Lemma tokenize_eq default_len p :
  tokenize default_len p
  = match scan default_len p with
    | Break => []
    | Continue p' => tokenize default_len p'
    | Token t p' => t :: tokenize default_len p'
    end.
Proof.
  unfold tokenize at 1. unfold enough_fuel. cbn [mml_tokens].
  destruct (is_nul (deref p)) eqn:Hnul.
  - now rewrite scan_nul.
  - pose proof (scan_advances default_len p) as Hadv.
    destruct (scan default_len p) as [|p'|t p']; [reflexivity| |];
      now rewrite (tokenize_enough 0 default_len 0 (String.length p) p') by lia.
Qed.

(** Induction on a score along the iterations of the loop. *)
Lemma score_ind default_len (P : string -> Prop) :
  (forall p,
     (forall p', scan default_len p = Continue p' -> P p') ->
     (forall t p', scan default_len p = Token t p' -> P p') ->
     P p) ->
  forall p, P p.
Proof.
  intros Hstep.
  assert (H : forall n p, (String.length p < n)%nat -> P p).
  { induction n as [|n IH]; intros p Hp; [lia|].
    apply Hstep; intros; apply IH;
      pose proof (scan_advances default_len p) as Hadv;
      match goal with E : scan _ _ = _ |- _ => rewrite E in Hadv end; lia. }
  intros p. apply (H (S (String.length p))). lia.
Qed.

Lemma tokenize_forall default_len (P : token -> Prop) :
  (forall p t p', scan default_len p = Token t p' -> P t) ->
  forall s, Forall P (tokenize default_len s).
Proof.
  intros HP. apply (score_ind default_len). intros p IHc IHt.
  rewrite tokenize_eq.
  destruct (scan default_len p) as [|p'|t p'] eqn:E.
  - constructor.
  - now apply IHc.
  - constructor; [now apply (HP p t p')|now apply (IHt t)].
Qed.

Lemma code_note_letter c :
  (code "A" <=? code c) && (code c <=? code "G") = true ->
  In c note_letters.
Proof.
  destruct c as [b0 b1 b2 b3 b4 b5 b6 b7].
  destruct b0, b1, b2, b3, b4, b5, b6, b7; vm_compute;
    try discriminate; tauto.
Qed.

Lemma parse_accidental_values p :
  fst (parse_accidental p) = -1 \/ fst (parse_accidental p) = 0
  \/ fst (parse_accidental p) = 1.
Proof.
  unfold parse_accidental.
  destruct (_ || _); [|destruct (Ascii.eqb _ _)]; cbn [fst]; tauto.
Qed.

Lemma scan_well_formed default_len p t p' :
  scan default_len p = Token t p' -> well_formed t.
Proof.
  unfold scan. destruct (is_nul _); [discriminate|].
  set (c := toupper (deref (skip_separators p))).
  set (q := advance (skip_separators p)).
  unfold classify.
  destruct (Ascii.eqb c "R" || Ascii.eqb c "P") eqn:Hrest.
  - destruct (parse_length 0 q) as [len q']. intros [= <- _].
    unfold well_formed. cbn [tok_is_rest tok_c tok_accidental].
    split; [|reflexivity].
    apply orb_true_iff in Hrest. simpl.
    destruct Hrest as [H|H]; apply Ascii.eqb_eq in H; rewrite H; tauto.
  - destruct ((code "A" <=? code c) && (code c <=? code "G")) eqn:Hnote;
      [|discriminate].
    pose proof (parse_accidental_values q) as Hacc.
    destruct (parse_accidental q) as [accidental q1]. cbn [fst] in Hacc.
    destruct (parse_length 0 q1) as [len q']. intros [= <- _].
    unfold well_formed. cbn [tok_is_rest tok_c tok_accidental].
    split; [now apply code_note_letter|exact Hacc].
Qed.

(** X6.  Whatever the score holds, every token the loop scans is well
    formed: a rest carries R or P and no accidental, a note one of the
    letters A..G in upper case and an accidental among -1, 0 and +1; and
    with a default length from 1 to 255 every token has a length of at
    least 1 that fits an [int], so the duration is never a division by
    zero. *)
Theorem tokens_well_formed default_len s :
  1 <= default_len <= 255 ->
  Forall (fun t => well_formed t /\ 1 <= tok_len t <= INT_MAX)
         (tokenize default_len s).
Proof.
  intros Hd. apply tokenize_forall. intros p t p' E. split.
  - exact (scan_well_formed default_len p t p' E).
  - exact (scan_len_range default_len p t p' Hd E).
Qed.

Lemma tokens_well_formed_witness :
  Forall (fun t => well_formed t /\ 1 <= tok_len t <= INT_MAX)
         (tokenize 4 "c0 x r+ b-16").
Proof.
  apply (tokens_well_formed 4 "c0 x r+ b-16"). lia.
Defined.


End TokenStream.

(* ------------------------------------------------------------------ *)
(** ** What a playback does                                            *)
(* ------------------------------------------------------------------ *)

Section PlaybackTrace.
Import CInt CType Watch Pitch MML Score.
Local Open Scope string_scope.
Local Open Scope Z_scope.
Local Open Scope list_scope.

Lemma render_tone_commands tempo_bpm octave t :
  List.length (tone_commands (render tempo_bpm octave t))
  = (if is_note t then 1 else 0)%nat
  /\ List.length (filter is_delay (render tempo_bpm octave t))
     = (if tok_is_rest t then 1 else 0)%nat.
Proof.
  unfold render, tone_commands, show_accidental, display_note_char, is_note.
  destruct (tok_is_rest t); [split; reflexivity|].
  destruct (0 <? tok_accidental t); [split; reflexivity|].
  destruct (tok_accidental t <? 0); split; reflexivity.
Qed.

Lemma count_flat_map {A B} (f : B -> bool) (g : A -> bool)
    (r : A -> list B) (ts : list A) :
  (forall t, List.length (filter f (r t)) = (if g t then 1 else 0)%nat) ->
  List.length (filter f (flat_map r ts)) = List.length (filter g ts).
Proof.
  intros H. induction ts as [|t ts IH]; [reflexivity|].
  cbn [flat_map filter]. rewrite filter_app, length_app, H, IH.
  now destruct (g t).
Qed.

(** X8.  The playback is the rendering of the tokens of the score, one
    after the other, followed by the cleanup; it sounds one tone for each
    note token and pauses once for each rest token, and nothing else
    sounds or pauses. *)
Theorem play_renders_tokens tempo_bpm default_len octave s :
  play tempo_bpm default_len octave (Some s)
  = flat_map (render tempo_bpm octave) (tokenize default_len s) ++ cleanup
  /\ List.length (tone_commands (play tempo_bpm default_len octave (Some s)))
     = List.length (filter is_note (tokenize default_len s))
  /\ List.length (filter is_delay (play tempo_bpm default_len octave (Some s)))
     = List.length (filter tok_is_rest (tokenize default_len s)).
Proof.
  rewrite play_tokenize. split; [reflexivity|].
  unfold tone_commands. rewrite !filter_app, !length_app.
  cbn [cleanup display_note_char app filter is_tone_command is_delay List.length].
  rewrite !Nat.add_0_r. split; apply count_flat_map; intros t;
    apply render_tone_commands.
Qed.

Lemma dur_ms_120 len :
  1 <= len <= INT_MAX ->
  u16_of (dur_ms 120 len) = 2000 / len /\ 0 <= 2000 / len <= 2000.
Proof.
  unfold INT_MAX. intros Hl.
  assert (Hd : 0 <= 2000 / len <= 2000).
  { split; [apply Z.div_pos; lia|]. apply Z.div_le_upper_bound; nia. }
  split; [|exact Hd].
  unfold dur_ms, quarter_ms.
  change (u32_of (60000 / 120)) with 500.
  change (u32_of (4 * 500)) with 2000.
  rewrite (u32_of_small len) by lia.
  rewrite u32_of_small by lia. apply u16_of_small. lia.
Qed.

Lemma note_from_mml_octave_4 c accidental :
  In c note_letters ->
  accidental = -1 \/ accidental = 0 \/ accidental = 1 ->
  exists idx, note_from_mml c accidental 4 = BUZZER_NOTE idx /\ 26 <= idx <= 39.
Proof.
  unfold note_letters. simpl.
  intros [ <- | [ <- | [ <- | [ <- | [ <- | [ <- | [ <- | [] ]]]]]]]
         [ -> | [ -> | -> ]];
    (eexists; split; [reflexivity|]; vm_compute; split; discriminate).
Qed.

Ltac in_bounds_cases :=
  repeat (apply Forall_cons || apply Forall_nil);
  cbn [in_bounds String.length];
  first [ exact I
        | lia
        | split; [reflexivity|reflexivity]
        | split; [reflexivity|left; reflexivity]
        | split; [reflexivity|right; reflexivity]
        | split; [eexists; split; [reflexivity|lia]|lia] ].

Lemma render_in_bounds t :
  well_formed t -> 1 <= tok_len t <= INT_MAX ->
  Forall in_bounds (render 120 4 t).
Proof.
  intros Hwf Hlen. destruct (dur_ms_120 (tok_len t) Hlen) as [Hdur Hrange].
  unfold well_formed in Hwf.
  unfold render, display_note_char, show_accidental.
  destruct (tok_is_rest t).
  - rewrite Hdur. cbn [app]. in_bounds_cases.
  - destruct Hwf as [Hc Hacc].
    destruct (note_from_mml_octave_4 _ _ Hc Hacc) as (idx & -> & Hidx).
    rewrite Hdur.
    destruct (0 <? tok_accidental t); [|destruct (tok_accidental t <? 0)];
      cbn [app]; in_bounds_cases.
Qed.

Lemma play_within_bounds mml :
  Forall in_bounds (mml_play_blocking mml).
Proof.
  destruct mml as [s|]; [|constructor].
  unfold mml_play_blocking. rewrite play_tokenize.
  apply Forall_app. split.
  - assert (H : Forall (fun t => well_formed t /\ 1 <= tok_len t <= INT_MAX)
                       (tokenize 4 s)).
    { apply tokenize_forall. intros p t p' E. split.
      - exact (scan_well_formed 4 p t p' E).
      - apply (scan_len_range 4 p t p'); [lia|exact E]. }
    induction H as [|t ts [Hwf Hlen] _ IH]; cbn [flat_map]; [constructor|].
    apply Forall_app. split; [now apply render_in_bounds|exact IH].
  - cbn [cleanup display_note_char app]. in_bounds_cases.
Qed.


End PlaybackTrace.

(* ------------------------------------------------------------------ *)
(** ** How scores are read                                             *)
(* ------------------------------------------------------------------ *)

Section Reading.
Import CInt CType Watch Pitch MML Score.
Local Open Scope string_scope.
Local Open Scope Z_scope.
Local Open Scope list_scope.

(** *** Lengths in decimal *)

Lemma digit_char_digit d :
  0 <= d <= 9 ->
  isdigit (digit_char d) = true /\ code (digit_char d) - code "0" = d.
Proof.
  intros H.
  assert (E : d = 0 \/ d = 1 \/ d = 2 \/ d = 3 \/ d = 4 \/ d = 5 \/ d = 6
              \/ d = 7 \/ d = 8 \/ d = 9) by lia.
  destruct E as [ -> | [ -> | [ -> | [ -> | [ -> | [ -> | [ -> | [ -> | [ -> | -> ]]]]]]]]];
    split; reflexivity.
Qed.

Lemma decimal_ge ds : forall acc,
  Forall (fun d => 0 <= d <= 9) ds -> 0 <= acc -> acc <= decimal acc ds.
Proof.
  unfold decimal.
  induction ds as [|d ds IH]; intros acc Hds Hacc; cbn [fold_left]; [lia|].
  inversion Hds as [|? ? Hd Hds']; subst.
  specialize (IH (acc * 10 + d) Hds'). lia.
Qed.

Lemma parse_length_digits ds tail : forall acc,
  Forall (fun d => 0 <= d <= 9) ds ->
  0 <= acc ->
  decimal acc ds <= INT_MAX ->
  isdigit (deref tail) = false ->
  parse_length acc (digits_string ds tail) = (decimal acc ds, tail).
Proof.
  induction ds as [|d ds IH]; intros acc Hds Hacc Hmax Htail.
  - cbn [digits_string]. now apply parse_length_no_digit.
  - inversion Hds as [|? ? Hd Hds']; subst.
    destruct (digit_char_digit d Hd) as [Hdig Hval].
    cbn [digits_string parse_length]. rewrite Hdig, Hval.
    change (decimal acc (d :: ds)) with (decimal (acc * 10 + d) ds) in *.
    pose proof (decimal_ge ds (acc * 10 + d) Hds') as Hge.
    assert (Hs : int_of (int_of (acc * 10) + d) = acc * 10 + d).
    { rewrite (int_of_small (acc * 10)) by (unfold INT_MIN, INT_MAX in *; lia).
      apply int_of_small. unfold INT_MIN, INT_MAX in *. lia. }
    rewrite Hs. apply IH; [assumption|lia|assumption|assumption].
Qed.

(** X10.  A run of decimal digits is read as the number it denotes,
    leading zeros included, as long as that number fits an [int]; the
    cursor stops at the first character that is not a digit. *)
Theorem parse_length_decimal ds tail :
  Forall (fun d => 0 <= d <= 9) ds ->
  decimal 0 ds <= INT_MAX ->
  isdigit (deref tail) = false ->
  parse_length 0 (digits_string ds tail) = (decimal 0 ds, tail).
Proof.
  intros Hds Hmax Htail. apply parse_length_digits; (assumption || lia).
Qed.

Lemma parse_length_decimal_witness :
  parse_length 0 (digits_string [0; 1; 6] " c") = (decimal 0 [0; 1; 6], " c").
Proof.
  apply (parse_length_decimal [0; 1; 6] " c").
  - repeat constructor; lia.
  - vm_compute. discriminate.
  - reflexivity.
Defined.

(** *** Letter case *)

Lemma toupper_facts c :
  toupper (toupper c) = toupper c
  /\ is_separator (toupper c) = is_separator c
  /\ is_nul (toupper c) = is_nul c
  /\ isdigit (toupper c) = isdigit c
  /\ Ascii.eqb (toupper c) "+" = Ascii.eqb c "+"
  /\ Ascii.eqb (toupper c) "#" = Ascii.eqb c "#"
  /\ Ascii.eqb (toupper c) "-" = Ascii.eqb c "-"
  /\ (isdigit c = true -> toupper c = c).
Proof.
  destruct c as [b0 b1 b2 b3 b4 b5 b6 b7].
  destruct b0, b1, b2, b3, b4, b5, b6, b7;
    repeat split; try reflexivity; vm_compute; discriminate.
Qed.

Lemma upcase_length s : String.length (upcase s) = String.length s.
Proof. induction s as [|ch s IH]; cbn; congruence. Qed.

Lemma deref_upcase p : deref (upcase p) = toupper (deref p).
Proof. now destruct p. Qed.

Lemma advance_upcase p : advance (upcase p) = upcase (advance p).
Proof. now destruct p. Qed.

Lemma skip_separators_upcase p :
  skip_separators (upcase p) = upcase (skip_separators p).
Proof.
  induction p as [|ch p IH]; [reflexivity|].
  cbn [upcase skip_separators].
  destruct (toupper_facts ch) as (_ & -> & _).
  now destruct (is_separator ch).
Qed.

Lemma parse_accidental_upcase p :
  parse_accidental (upcase p)
  = (fst (parse_accidental p), upcase (snd (parse_accidental p))).
Proof.
  unfold parse_accidental. rewrite deref_upcase, advance_upcase.
  destruct (toupper_facts (deref p)) as (_ & _ & _ & _ & -> & -> & -> & _).
  destruct (_ || _); [reflexivity|]. now destruct (Ascii.eqb _ _).
Qed.

Lemma parse_length_upcase p : forall len,
  parse_length len (upcase p)
  = (fst (parse_length len p), upcase (snd (parse_length len p))).
Proof.
  induction p as [|ch p IH]; intros len; [reflexivity|].
  cbn [upcase parse_length].
  destruct (toupper_facts ch) as (_ & _ & _ & -> & _ & _ & _ & Hfix).
  destruct (isdigit ch); [|reflexivity].
  rewrite (Hfix eq_refl). apply IH.
Qed.

Lemma scan_upcase default_len p :
  scan default_len (upcase p)
  = match scan default_len p with
    | Break => Break
    | Continue q => Continue (upcase q)
    | Token t q => Token t (upcase q)
    end.
Proof.
  unfold scan.
  rewrite skip_separators_upcase, deref_upcase, advance_upcase.
  set (q := skip_separators p).
  destruct (toupper_facts (deref q)) as (-> & _ & -> & _).
  destruct (is_nul (deref q)); [reflexivity|].
  unfold classify.
  destruct (_ || _).
  - rewrite parse_length_upcase.
    now destruct (parse_length 0 (advance q)).
  - destruct (_ && _); [|reflexivity].
    rewrite parse_accidental_upcase.
    destruct (parse_accidental (advance q)) as [accidental q1]. cbn [fst snd].
    rewrite parse_length_upcase.
    now destruct (parse_length 0 q1).
Qed.

Lemma tokenize_upcase default_len : forall p,
  tokenize default_len (upcase p) = tokenize default_len p.
Proof.
  apply (score_ind default_len). intros p IHc IHt.
  rewrite (tokenize_eq default_len (upcase p)), (tokenize_eq default_len p).
  rewrite scan_upcase.
  destruct (scan default_len p) as [|q|t q].
  - reflexivity.
  - now apply IHc.
  - f_equal. now apply (IHt t).
Qed.

(** X11.  The case of the letters of a score does not matter: two
    scores that agree once every letter is put in upper case are scanned
    into the same tokens and play the same. *)
Theorem play_case_insensitive default_len s1 s2 :
  upcase s1 = upcase s2 ->
  tokenize default_len s1 = tokenize default_len s2
  /\ forall tempo_bpm octave,
       play tempo_bpm default_len octave (Some s1)
       = play tempo_bpm default_len octave (Some s2).
Proof.
  intros H.
  assert (E : tokenize default_len s1 = tokenize default_len s2).
  { rewrite <- (tokenize_upcase default_len s1), H. apply tokenize_upcase. }
  split; [exact E|]. intros tempo_bpm octave.
  now rewrite !play_tokenize, E.
Qed.

Lemma play_case_insensitive_witness :
  tokenize 4 "C8 D-8 R4" = tokenize 4 "c8 d-8 r4"
  /\ forall tempo_bpm octave,
       play tempo_bpm 4 octave (Some "C8 D-8 R4")
       = play tempo_bpm 4 octave (Some "c8 d-8 r4").
Proof.
  apply (play_case_insensitive 4 "C8 D-8 R4" "c8 d-8 r4"). reflexivity.
Defined.

End Reading.

(* ------------------------------------------------------------------ *)
(** ** Separators split a score                                        *)
(* ------------------------------------------------------------------ *)

Section Separators.
Import CInt CType Watch Pitch MML Score.
Local Open Scope string_scope.
Local Open Scope Z_scope.
Local Open Scope list_scope.

Lemma separator_facts sep :
  is_separator sep = true ->
  isdigit sep = false
  /\ (Ascii.eqb sep "+" || Ascii.eqb sep "#") = false
  /\ Ascii.eqb sep "-" = false.
Proof.
  unfold is_separator. intros H.
  apply orb_true_iff in H. destruct H as [H|H];
    [apply orb_true_iff in H; destruct H as [H|H]|];
    apply Ascii.eqb_eq in H; subst sep; repeat split.
Qed.

Lemma skip_separators_app p tail :
  skip_separators (p ++ tail)%string
  = match skip_separators p with
    | EmptyString => skip_separators tail
    | q => (q ++ tail)%string
    end.
Proof.
  induction p as [|ch p IH]; [reflexivity|].
  cbn [String.append skip_separators].
  destruct (is_separator ch); [exact IH|reflexivity].
Qed.

Lemma parse_length_app q tail : forall len,
  isdigit (deref tail) = false ->
  parse_length len (q ++ tail)%string
  = (fst (parse_length len q), (snd (parse_length len q) ++ tail)%string).
Proof.
  induction q as [|ch q IH]; intros len Htail.
  - cbn [String.append parse_length fst snd].
    now apply parse_length_no_digit.
  - cbn [String.append parse_length].
    destruct (isdigit ch); [now apply IH|reflexivity].
Qed.

Lemma parse_accidental_app q tail :
  (Ascii.eqb (deref tail) "+" || Ascii.eqb (deref tail) "#") = false ->
  Ascii.eqb (deref tail) "-" = false ->
  parse_accidental (q ++ tail)%string
  = (fst (parse_accidental q), (snd (parse_accidental q) ++ tail)%string).
Proof.
  intros H1 H2. destruct q as [|ch q].
  - cbn [String.append]. unfold parse_accidental at 1. now rewrite H1, H2.
  - unfold parse_accidental. cbn [String.append deref advance].
    destruct (Ascii.eqb ch "+" || Ascii.eqb ch "#"); [reflexivity|].
    now destruct (Ascii.eqb ch "-").
Qed.

Lemma no_nul_skip_separators p :
  no_nul p = true -> no_nul (skip_separators p) = true.
Proof.
  induction p as [|ch p IH]; [reflexivity|].
  cbn [no_nul skip_separators]. intros H.
  apply andb_true_iff in H. destruct H as [H1 H2].
  destruct (is_separator ch); [now apply IH|].
  cbn [no_nul]. now rewrite H1, H2.
Qed.

(** Scanning in front of a separator: what follows the separator is not
    looked at before the cursor reaches it. *)
Lemma scan_app default_len p sep s :
  no_nul p = true ->
  is_separator sep = true ->
  scan default_len (p ++ String sep s)%string
  = match scan default_len p with
    | Break => scan default_len s
    | Continue p' => Continue (p' ++ String sep s)%string
    | Token t p' => Token t (p' ++ String sep s)%string
    end.
Proof.
  intros Hnul Hsep.
  destruct (separator_facts sep Hsep) as (Hdig & Hacc1 & Hacc2).
  unfold scan at 1 2. rewrite skip_separators_app.
  destruct (skip_separators p) as [|ch q] eqn:Hskip.
  - cbn [deref]. change (is_nul NUL) with true. cbv beta iota.
    cbn [skip_separators]. rewrite Hsep. reflexivity.
  - cbn [String.append deref advance].
    apply no_nul_skip_separators in Hnul. rewrite Hskip in Hnul.
    cbn [no_nul] in Hnul. apply andb_true_iff in Hnul.
    destruct Hnul as [Hch _]. apply negb_true_iff in Hch. rewrite Hch.
    unfold classify.
    destruct (Ascii.eqb (toupper ch) "R" || Ascii.eqb (toupper ch) "P").
    + rewrite parse_length_app by exact Hdig.
      now destruct (parse_length 0 q).
    + destruct ((code "A" <=? code (toupper ch))
                && (code (toupper ch) <=? code "G")); [|reflexivity].
      rewrite parse_accidental_app by assumption.
      destruct (parse_accidental q) as [accidental q1]. cbn [fst snd].
      rewrite parse_length_app by exact Hdig.
      now destruct (parse_length 0 q1).
Qed.

Lemma no_nul_advance p : no_nul p = true -> no_nul (advance p) = true.
Proof.
  destruct p as [|ch p]; [reflexivity|]. cbn [no_nul advance].
  intros H. apply andb_true_iff in H. tauto.
Qed.

Lemma no_nul_parse_accidental p :
  no_nul p = true -> no_nul (snd (parse_accidental p)) = true.
Proof.
  intros H. unfold parse_accidental.
  destruct (_ || _); [now apply no_nul_advance|].
  destruct (Ascii.eqb _ _); [now apply no_nul_advance|exact H].
Qed.

Lemma no_nul_parse_length p : forall len,
  no_nul p = true -> no_nul (snd (parse_length len p)) = true.
Proof.
  induction p as [|ch p IH]; intros len H; [reflexivity|].
  cbn [parse_length]. destruct (isdigit ch); [|exact H].
  apply IH. cbn [no_nul] in H. apply andb_true_iff in H. tauto.
Qed.

Lemma scan_no_nul default_len p :
  no_nul p = true ->
  match scan default_len p with
  | Break => True
  | Continue p' | Token _ p' => no_nul p' = true
  end.
Proof.
  intros H. unfold scan.
  apply no_nul_skip_separators in H.
  destruct (is_nul _); [exact I|].
  apply no_nul_advance in H.
  set (q := advance (skip_separators p)) in *.
  unfold classify.
  destruct (_ || _).
  - pose proof (no_nul_parse_length q 0 H) as H'.
    now destruct (parse_length 0 q).
  - destruct (_ && _); [|exact H].
    pose proof (no_nul_parse_accidental q H) as H1.
    destruct (parse_accidental q) as [accidental q1]. cbn [snd] in H1.
    pose proof (no_nul_parse_length q1 0 H1) as H'.
    now destruct (parse_length 0 q1).
Qed.

Lemma tokenize_separator default_len sep s :
  is_separator sep = true ->
  tokenize default_len (String sep s) = tokenize default_len s.
Proof.
  intros Hsep.
  rewrite (tokenize_eq default_len (String sep s)), (tokenize_eq default_len s).
  unfold scan at 1. cbn [skip_separators]. rewrite Hsep. reflexivity.
Qed.

Lemma tokenize_app default_len sep s2 :
  is_separator sep = true ->
  forall s1, no_nul s1 = true ->
  tokenize default_len (s1 ++ String sep s2)%string
  = tokenize default_len s1 ++ tokenize default_len s2.
Proof.
  intros Hsep.
  apply (score_ind default_len
           (fun s1 => no_nul s1 = true ->
                      tokenize default_len (s1 ++ String sep s2)%string
                      = tokenize default_len s1 ++ tokenize default_len s2)).
  intros p IHc IHt Hnul.
  rewrite (tokenize_eq default_len (p ++ String sep s2)%string).
  rewrite (tokenize_eq default_len p).
  rewrite (scan_app default_len p sep s2 Hnul Hsep).
  pose proof (scan_no_nul default_len p Hnul) as Hnn.
  destruct (scan default_len p) as [|q|t q].
  - cbn [app]. now rewrite <- tokenize_eq.
  - now apply IHc.
  - cbn [app]. f_equal. now apply (IHt t).
Qed.

(** X12.  A space, tab or bar cuts the score in two parts that are
    scanned independently of each other: the tokens of the whole are the
    tokens of the part before the separator followed by those of the part
    after it, and the playback of the whole is the rendering of the first
    part followed by the playback of the second.  In particular leading
    and trailing separators change nothing. *)
Theorem separator_splits_score default_len s1 sep s2 :
  no_nul s1 = true ->
  is_separator sep = true ->
  tokenize default_len (s1 ++ String sep s2)%string
  = tokenize default_len s1 ++ tokenize default_len s2
  /\ forall tempo_bpm octave,
       play tempo_bpm default_len octave (Some (s1 ++ String sep s2)%string)
       = flat_map (render tempo_bpm octave) (tokenize default_len s1)
         ++ play tempo_bpm default_len octave (Some s2).
Proof.
  intros Hnul Hsep.
  pose proof (tokenize_app default_len sep s2 Hsep s1 Hnul) as E.
  split; [exact E|]. intros tempo_bpm octave.
  rewrite !play_tokenize, E, flat_map_app. now rewrite app_assoc.
Qed.

Lemma separator_splits_score_witness :
  tokenize 4 ("c8 d-" ++ String "|" "8 r4")%string
  = tokenize 4 "c8 d-" ++ tokenize 4 "8 r4"
  /\ forall tempo_bpm octave,
       play tempo_bpm 4 octave (Some ("c8 d-" ++ String "|" "8 r4")%string)
       = flat_map (render tempo_bpm octave) (tokenize 4 "c8 d-")
         ++ play tempo_bpm 4 octave (Some "8 r4").
Proof.
  apply (separator_splits_score 4 "c8 d-" "|" "8 r4"); reflexivity.
Defined.

(** Without a separator in between two parts do not play independently:
    the digits that open the second part become the length of the last
    note of the first. *)
Lemma concatenation_is_not_independent :
  tokenize 4 "c8" <> tokenize 4 "c" ++ tokenize 4 "8".
Proof. discriminate. Qed.

End Separators.

(* ------------------------------------------------------------------ *)
(** ** Pauses, indicators and the life of the face                     *)
(* ------------------------------------------------------------------ *)

Section PausesAndIndicators.
Import CInt CType Watch Pitch MML Score.
Local Open Scope string_scope.
Local Open Scope Z_scope.
Local Open Scope list_scope.

Lemma ticks_needed_le_2 ms :
  0 <= ms <= 2000 -> (Delay.ticks_needed ms <= 2)%nat.
Proof.
  intros H. unfold Delay.ticks_needed.
  destruct (Z.leb_spec ms 0); [lia|].
  destruct (Z.leb_spec ms 1000); [lia|].
  assert ((ms + 999) / 1000 < 3) by (apply Z.div_lt_upper_bound; lia).
  assert (0 <= (ms + 999) / 1000) by (apply Z.div_pos; lia).
  lia.
Qed.

(** X13.  Every pause of a playback ends with the clock: a rest asks
    [mml_delay_ms] for at most 2000 ms, and the busy-wait is over as soon
    as the second has changed as often as that takes, which is at most
    twice. *)
Theorem play_pauses_end mml ms :
  In (Watch.mml_delay_ms ms) (mml_play_blocking mml) ->
  (Delay.ticks_needed ms <= 2)%nat
  /\ forall start clock,
       Delay.mml_delay_ms ms (start :: clock)
       = Delay.wait_ticks clock (Delay.ticks_needed ms) start.
Proof.
  intros Hin.
  pose proof (play_within_bounds mml) as Hb.
  rewrite Forall_forall in Hb. specialize (Hb _ Hin). cbn [in_bounds] in Hb.
  split; [now apply ticks_needed_le_2|].
  intros start clock. apply mml_delay_ms_wait_ticks. lia.
Qed.

Lemma play_pauses_end_witness :
  (Delay.ticks_needed 500 <= 2)%nat
  /\ forall start clock,
       Delay.mml_delay_ms 500 (start :: clock)
       = Delay.wait_ticks clock (Delay.ticks_needed 500) start.
Proof.
  apply (play_pauses_end (Some "r4") 500).
  vm_compute. right. right. right. right. left. reflexivity.
Defined.

(** X14.  While the tone of a note sounds, digit 0 shows the letter of
    the note in lower case, the sharp pixel is lit exactly for a sharp and
    the flat pixel exactly for a flat; once the note is rendered both
    pixels are dark again. *)
Theorem accidental_shown_while_sounding hw tempo_bpm octave t :
  tok_is_rest t = false ->
  let before :=
    [watch_clear_pixel 0 12; watch_clear_pixel 0 15]
    ++ display_note_char (tok_c t) ++ show_accidental (tok_accidental t) in
  render tempo_bpm octave t
  = before
    ++ [watch_buzzer_play_note
          (note_from_mml (tok_c t) (tok_accidental t) octave)
          (u16_of (dur_ms tempo_bpm (tok_len t)));
        watch_clear_pixel 0 12; watch_clear_pixel 0 15]
  /\ digit (run hw before) 0 = tolower (tok_c t)
  /\ pixel (run hw before) 0 12 = (0 <? tok_accidental t)
  /\ pixel (run hw before) 0 15 = (tok_accidental t <? 0)
  /\ pixel (run hw (render tempo_bpm octave t)) 0 12 = false
  /\ pixel (run hw (render tempo_bpm octave t)) 0 15 = false.
Proof.
  intros Hrest. unfold render, show_accidental, display_note_char.
  rewrite Hrest.
  destruct (Z.ltb_spec 0 (tok_accidental t));
    destruct (Z.ltb_spec (tok_accidental t) 0); try lia;
    repeat split.
Qed.

Lemma accidental_shown_while_sounding_witness :
  render 120 4 (mk_token "F" 1 false 8)
  = ([watch_clear_pixel 0 12; watch_clear_pixel 0 15]
     ++ display_note_char "F" ++ show_accidental 1)
    ++ [watch_buzzer_play_note (note_from_mml "F" 1 4) (u16_of (dur_ms 120 8));
        watch_clear_pixel 0 12; watch_clear_pixel 0 15]
  /\ digit (run (mk_hw (fun _ => " "%char) (fun _ _ => true) true)
                ([watch_clear_pixel 0 12; watch_clear_pixel 0 15]
                 ++ display_note_char "F" ++ show_accidental 1)) 0
     = tolower "F"
  /\ pixel (run (mk_hw (fun _ => " "%char) (fun _ _ => true) true)
                ([watch_clear_pixel 0 12; watch_clear_pixel 0 15]
                 ++ display_note_char "F" ++ show_accidental 1)) 0 12
     = (0 <? 1)
  /\ pixel (run (mk_hw (fun _ => " "%char) (fun _ _ => true) true)
                ([watch_clear_pixel 0 12; watch_clear_pixel 0 15]
                 ++ display_note_char "F" ++ show_accidental 1)) 0 15
     = (1 <? 0)
  /\ pixel (run (mk_hw (fun _ => " "%char) (fun _ _ => true) true)
                (render 120 4 (mk_token "F" 1 false 8))) 0 12 = false
  /\ pixel (run (mk_hw (fun _ => " "%char) (fun _ _ => true) true)
                (render 120 4 (mk_token "F" 1 false 8))) 0 15 = false.
Proof.
  apply (accidental_shown_while_sounding
           (mk_hw (fun _ => " "%char) (fun _ _ => true) true) 120 4
           (mk_token "F" 1 false 8)).
  reflexivity.
Defined.

End PausesAndIndicators.

Section FaceLife.
Import Watch MML Face Lifecycle.




End FaceLife.
